(** * Battleship: the board simulation engine

    A shallow embedding of [battleship/models.py] and [battleship/game.py].

    - Python [int] is unbounded: coordinates and the board size are [Z].
    - [Orientation] and [MoveCommand] are closed enumerations.
    - [Position] is a frozen dataclass: a value, compared by its fields,
      used as the key of the board's dictionary.
    - [Ship] is a mutable dataclass.  The board's dictionary and its
      placement list hold references to the same ship objects, so ships
      live in a store and the board holds references into it.
    - A call either returns or raises; a raised exception keeps whatever
      had been written to the store before it.  Calls are functions from
      the world to an outcome and a world.
    - The [logger] calls only format strings; they are left out. *)

From Stdlib Require Import ZArith String Ascii DecimalString DecimalZ
  DecimalPos.
From stdpp Require Import base numbers countable gmap list.

Local Open Scope Z_scope.

(** ** models.py *)

(** [class Orientation(Enum)].  The constructors keep the names of the
    source; the module is never imported, so they are always written
    [Orientation.N], ..., as in Python. *)
Module Orientation.

Inductive t : Set := N | E | S | W.

#[global] Instance eq_dec : EqDecision t.
Proof. solve_decision. Defined.

(** [Orientation.rotate_left]: 90 degrees counter-clockwise. *)
Definition rotate_left (self : t) : t :=
  match self with
  | N => W
  | W => S
  | S => E
  | E => N
  end.

(** [Orientation.rotate_right]: 90 degrees clockwise. *)
Definition rotate_right (self : t) : t :=
  match self with
  | N => E
  | E => S
  | S => W
  | W => N
  end.

(** [Orientation.to_vector]: the change in (x, y) of one step. *)
Definition to_vector (self : t) : Z * Z :=
  match self with
  | N => (0, 1)
  | E => (1, 0)
  | S => (0, -1)
  | W => (-1, 0)
  end.

(** [Orientation.name], the member's name as [Enum] gives it. *)
Definition name (self : t) : string :=
  match self with
  | N => "N"
  | E => "E"
  | S => "S"
  | W => "W"
  end.

End Orientation.

(** [class MoveCommand(Enum)]. *)
Module MoveCommand.

Inductive t : Set := L | R | M.

End MoveCommand.

(** [str] of a Python [int]: decimal digits, a minus sign when negative. *)
Definition str_int (z : Z) : string := NilZero.string_of_int (Z.to_int z).

(** [@dataclass(frozen=True) class Position]. *)
Module Position.

Record t : Set := mk { x : Z; y : Z }.

#[global] Instance eq_dec : EqDecision t.
Proof. solve_decision. Defined.

#[global] Instance countable : Countable t.
Proof.
  apply (inj_countable' (fun p => (x p, y p)) (fun xy => mk (fst xy) (snd xy))).
  intros []; reflexivity.
Defined.

(** [Position.move]. *)
Definition move (self : t) (orientation : Orientation.t) : t :=
  let '(dx, dy) := Orientation.to_vector orientation in
  mk (x self + dx) (y self + dy).

(** The [repr] a dataclass generates; f-strings of a position use it. *)
Definition repr (self : t) : string :=
  String.concat ""
    ["Position(x="; str_int (x self); ", y="; str_int (y self); ")"]%string.

End Position.

(** [@dataclass class Ship].  The methods mutate [self]; here each one
    gives the new contents of the object. *)
Module Ship.

Record t : Set := mk {
  position : Position.t;
  orientation : Orientation.t;
  sunk : bool
}.

#[global] Instance eq_dec : EqDecision t.
Proof. solve_decision. Defined.

(** [Ship(position, orientation)]: [sunk] defaults to [False]. *)
Definition new (position : Position.t) (orientation : Orientation.t) : t :=
  mk position orientation false.

Definition rotate_left (self : t) : t :=
  mk (position self) (Orientation.rotate_left (orientation self)) (sunk self).

Definition rotate_right (self : t) : t :=
  mk (position self) (Orientation.rotate_right (orientation self)) (sunk self).

Definition move_forward (self : t) : t :=
  mk (Position.move (position self) (orientation self))
     (orientation self) (sunk self).

Definition sink (self : t) : t :=
  mk (position self) (orientation self) true.

(** The part of [__str__] before [status]. *)
Definition pose_str (self : t) : string :=
  String.concat ""
    ["("; str_int (Position.x (position self)); ", ";
     str_int (Position.y (position self)); ", ";
     Orientation.name (orientation self); ")"]%string.

(** [Ship.__str__]. *)
Definition str (self : t) : string :=
  let status := if sunk self then " SUNK"%string else ""%string in
  String.append (pose_str self) status.

End Ship.

(** ** game.py *)

(** A reference to a [Ship] object: its index in the store. *)
Abbreviation ref := nat.

(** The messages of the [BoardError]s of game.py, one constructor for each
    [raise], holding the values its f-string formats. *)
Inductive BoardError : Set :=
  | OutOfBounds (position : Position.t) (size : Z)
      (* add_ship: ship.position is outside the board *)
  | AlreadyOccupied (position : Position.t) (occupant : Ship.t)
      (* add_ship: ship.position is a key of _ships *)
  | NoShipFound (start_pos : Position.t)
      (* apply_move_sequence: nothing at start_pos *)
  | TargetOutOfBounds (potential_next_pos : Position.t) (size : Z) (step : Z)
      (* _simulate_move: an M step leaves the board *)
  | Collision (final_position : Position.t) (colliding_ship : Ship.t).
      (* apply_move_sequence: another ship is at the destination *)

(** The text of the message. *)
Definition message (e : BoardError) : string :=
  match e with
  | OutOfBounds p n =>
      String.concat ""
        ["Position "; Position.repr p; " is out of bounds (Board Size: ";
         str_int n; "x"; str_int n; ")."]%string
  | AlreadyOccupied p s =>
      String.concat ""
        ["Position "; Position.repr p; " is already occupied by ";
         Ship.str s; "."]%string
  | NoShipFound p =>
      String.concat ""
        ["No ship found at starting position "; Position.repr p;
         " for move sequence."]%string
  | TargetOutOfBounds p n i =>
      String.concat ""
        ["Target "; Position.repr p; " out of bounds (Board: ";
         str_int n; "x"; str_int n; ") on step "; str_int i; "."]%string
  | Collision p s =>
      String.concat ""
        ["Collision at "; Position.repr p; " with "; Ship.str s; "!"]%string
  end.

(** add_ship raises the first two (the placement errors), the move
    operation the other three (the move errors). *)
Definition is_placement_error (e : BoardError) : bool :=
  match e with
  | OutOfBounds _ _ | AlreadyOccupied _ _ => true
  | _ => false
  end.

Definition is_move_error (e : BoardError) : bool :=
  match e with
  | NoShipFound _ | TargetOutOfBounds _ _ _ | Collision _ _ => true
  | _ => false
  end.

(** [class Board]: its three attributes. *)
Record Board : Type := mkBoard {
  size : Z;
  _ships : gmap Position.t ref;
  _initial_ships_order : list ref
}.

(** The world: the ship objects and the board. *)
Record World : Type := mkWorld {
  heap : list Ship.t;
  board : Board
}.

(** How a call ends.  [Dangling] is not a Python behaviour: it is what the
    model answers when asked for the object of a reference that the store
    does not hold, which no Python reference ever is. *)
Inductive Outcome (A : Type) : Type :=
  | Return (a : A)
  | Raise (e : BoardError)
  | Dangling (r : ref).

Arguments Return {A} a.
Arguments Raise {A} e.
Arguments Dangling {A} r.

Definition Exec (A : Type) : Type := World -> Outcome A * World.

Definition ret {A} (a : A) : Exec A := fun w => (Return a, w).

Definition bind {A B} (c : Exec A) (k : A -> Exec B) : Exec B :=
  fun w =>
    match c w with
    | (Return a, w') => k a w'
    | (Raise e, w') => (Raise e, w')
    | (Dangling r, w') => (Dangling r, w')
    end.

Definition raise {A} (e : BoardError) : Exec A := fun w => (Raise e, w).

Notation "x <- c ;; k" := (bind c (fun x => k))
  (at level 100, c at next level, right associativity).
Notation "c ;;; k" := (bind c (fun _ => k))
  (at level 100, right associativity).

(** Reading the fields of the object behind a reference. *)
Definition deref (r : ref) : Exec Ship.t :=
  fun w =>
    match heap w !! r with
    | Some s => (Return s, w)
    | None => (Dangling r, w)
    end.

(** Writing the object behind a reference in place. *)
Definition modify (r : ref) (f : Ship.t -> Ship.t) : Exec unit :=
  fun w =>
    match heap w !! r with
    | Some s => (Return tt, mkWorld (<[r := f s]> (heap w)) (board w))
    | None => (Dangling r, w)
    end.

(** [Ship(position, orientation, sunk)]: a new object, and its reference. *)
Definition new_ship (s : Ship.t) : Exec ref :=
  fun w => (Return (length (heap w)), mkWorld (heap w ++ [s]) (board w)).

Definition get_board : Exec Board := fun w => (Return (board w), w).

Definition set_ships (m : gmap Position.t ref) : Exec unit :=
  fun w =>
    (Return tt,
     mkWorld (heap w)
       (mkBoard (size (board w)) m (_initial_ships_order (board w)))).

Definition set_order (l : list ref) : Exec unit :=
  fun w =>
    (Return tt,
     mkWorld (heap w) (mkBoard (size (board w)) (_ships (board w)) l)).

(** [Board(size)]: [__post_init__] raises [ValueError] unless the size is
    positive; otherwise the dictionary and the list start empty. *)
Definition Board_init (size : Z) : option Board :=
  if size <=? 0 then None else Some (mkBoard size ∅ []).

(** [Board.is_within_bounds]. *)
Definition is_within_bounds (self : Board) (position : Position.t) : bool :=
  (0 <=? Position.x position) && (Position.x position <? size self)
  && ((0 <=? Position.y position) && (Position.y position <? size self)).

(** [Board.add_ship]. *)
Definition add_ship (ship : ref) : Exec unit :=
  s <- deref ship ;;
  self <- get_board ;;
  if negb (is_within_bounds self (Ship.position s)) then
    raise (OutOfBounds (Ship.position s) (size self))
  else
    match _ships self !! Ship.position s with
    | Some occupant =>
        o <- deref occupant ;;
        raise (AlreadyOccupied (Ship.position s) o)
    | None =>
        set_ships (<[Ship.position s := ship]> (_ships self)) ;;;
        set_order (_initial_ships_order self ++ [ship])
    end.

(** [Board.get_ship_at]. *)
Definition get_ship_at (position : Position.t) : Exec (option ref) :=
  self <- get_board ;;
  ret (_ships self !! position).

(** The loop of [_simulate_move]: [i] is the index [enumerate] gives,
    [current_ship_state] the local copy the loop rotates and advances. *)
Fixpoint simulate_loop (self : Board) (i : Z) (current_ship_state : Ship.t)
    (sequence : list MoveCommand.t) : BoardError + Ship.t :=
  match sequence with
  | [] => inr current_ship_state
  | command :: rest =>
      match command with
      | MoveCommand.L =>
          simulate_loop self (i + 1) (Ship.rotate_left current_ship_state) rest
      | MoveCommand.R =>
          simulate_loop self (i + 1) (Ship.rotate_right current_ship_state) rest
      | MoveCommand.M =>
          let potential_next_pos :=
            Position.move (Ship.position current_ship_state)
              (Ship.orientation current_ship_state) in
          if negb (is_within_bounds self potential_next_pos) then
            inl (TargetOutOfBounds potential_next_pos (size self) (i + 1))
          else
            simulate_loop self (i + 1)
              (Ship.move_forward current_ship_state) rest
      end
  end.

(** [Board._simulate_move].  The copy it works on is a local object that
    no one else holds: it is a value here, not a store cell. *)
Definition _simulate_move (start_ship_state : ref)
    (sequence : list MoveCommand.t) : Exec Ship.t :=
  s <- deref start_ship_state ;;
  self <- get_board ;;
  match simulate_loop self 0
          (Ship.new (Ship.position s) (Ship.orientation s)) sequence with
  | inl e => raise e
  | inr final => ret final
  end.

(** [Board.apply_move_sequence].  The two [except] clauses re-raise what
    they caught, so the [try] is the call itself. *)
Definition apply_move_sequence (start_pos : Position.t)
    (sequence : list MoveCommand.t) : Exec unit :=
  found <- get_ship_at start_pos ;;
  match found with
  | None => raise (NoShipFound start_pos)
  | Some ship_to_move =>
      s <- deref ship_to_move ;;
      if Ship.sunk s then ret tt
      else
        let original_position := Ship.position s in
        final_simulated_state <- _simulate_move ship_to_move sequence ;;
        let final_position := Ship.position final_simulated_state in
        let final_orientation := Ship.orientation final_simulated_state in
        self <- get_board ;;
        match _ships self !! final_position with
        | Some colliding_ship =>
            if bool_decide (final_position <> original_position)
               && bool_decide (colliding_ship <> ship_to_move)
            then
              c <- deref colliding_ship ;;
              raise (Collision final_position c)
            else ret tt
        | None => ret tt
        end ;;;
        modify ship_to_move
          (fun s => Ship.mk final_position (Ship.orientation s) (Ship.sunk s)) ;;;
        modify ship_to_move
          (fun s => Ship.mk (Ship.position s) final_orientation (Ship.sunk s)) ;;;
        if bool_decide (final_position <> original_position) then
          self <- get_board ;;
          (if bool_decide (_ships self !! original_position = Some ship_to_move)
           then set_ships (delete original_position (_ships self))
           else ret tt) ;;;
          self <- get_board ;;
          set_ships (<[final_position := ship_to_move]> (_ships self))
        else ret tt
  end.

(** [Board.apply_shoot]. *)
Definition apply_shoot (target_pos : Position.t) : Exec unit :=
  self <- get_board ;;
  if negb (is_within_bounds self target_pos) then ret tt
  else
    found <- get_ship_at target_pos ;;
    match found with
    | None => ret tt
    | Some ship_hit =>
        s <- deref ship_hit ;;
        if negb (Ship.sunk s) then modify ship_hit Ship.sink
        else ret tt
    end.

(** [str(ship) for ship in ...]: the comprehension, one reference at a
    time. *)
Fixpoint str_each (ships : list ref) : Exec (list string) :=
  match ships with
  | [] => ret []
  | ship :: rest =>
      s <- deref ship ;;
      strs <- str_each rest ;;
      ret (Ship.str s :: strs)
  end.

(** [Board.get_final_ship_states]. *)
Definition get_final_ship_states : Exec (list string) :=
  self <- get_board ;;
  str_each (_initial_ships_order self).

(** ** Clients of the board *)

(** What a program holding a board can do with it: create a ship object,
    and call the three operations.  As main.py's [_execute_operation] does,
    the client catches a [BoardError] and goes on with the next call. *)
Inductive Call : Set :=
  | NewShip (s : Ship.t)
  | AddShip (ship : ref)
  | ApplyMoveSequence (start_pos : Position.t) (sequence : list MoveCommand.t)
  | ApplyShoot (target_pos : Position.t).

Definition call (c : Call) : Exec unit :=
  match c with
  | NewShip s => new_ship s ;;; ret tt
  | AddShip ship => add_ship ship
  | ApplyMoveSequence start_pos sequence =>
      apply_move_sequence start_pos sequence
  | ApplyShoot target_pos => apply_shoot target_pos
  end.

Definition step (c : Call) (w : World) : World := snd (call c w).

Fixpoint run (cs : list Call) (w : World) : World :=
  match cs with
  | [] => w
  | c :: cs' => run cs' (step c w)
  end.

(** The ships whose [add_ship] returned, in the order of the calls. *)
Fixpoint placed (cs : list Call) (w : World) : list ref :=
  match cs with
  | [] => []
  | c :: cs' =>
      match c, fst (call c w) with
      | AddShip ship, Return _ => ship :: placed cs' (step c w)
      | _, _ => placed cs' (step c w)
      end
  end.

(** The board [Board(size)] builds, and a world that holds it. *)
Definition empty_board (size : Z) : Board := mkBoard size ∅ [].

Definition start_world (objects : list Ship.t) (size : Z) : World :=
  mkWorld objects (empty_board size).

(** ** The board invariant *)

(** Every key of the dictionary is the position of the ship stored under
    it (so that ship exists). *)
Definition keys_agree (w : World) : Prop :=
  map_Forall (fun p r => Ship.position <$> heap w !! r = Some p)
    (_ships (board w)).

(** Every key is a cell of the board. *)
Definition keys_in_bounds (w : World) : Prop :=
  map_Forall (fun p (_ : ref) => is_within_bounds (board w) p = true)
    (_ships (board w)).

(** The placement list holds each ship of the dictionary once, and
    nothing else. *)
Definition order_agrees (w : World) : Prop :=
  NoDup (_initial_ships_order (board w))
  /\ list_to_set (_initial_ships_order (board w))
     =@{gset ref} map_img (_ships (board w)).

Definition wf (w : World) : Prop :=
  keys_agree w /\ keys_in_bounds w /\ order_agrees w.

#[global] Instance wf_dec (w : World) : Decision (wf w).
Proof. unfold wf, keys_agree, keys_in_bounds, order_agrees. apply _. Defined.

(** The effect of a committed move on the world: the ship at [r] gets the
    simulated position and orientation and, when it left [start], its
    entry moves from [start] to the new position. *)
Definition committed (w : World) (start : Position.t) (r : ref)
    (s final : Ship.t) : World :=
  mkWorld
    (<[r := Ship.mk (Ship.position final) (Ship.orientation final)
              (Ship.sunk s)]> (heap w))
    (mkBoard (size (board w))
       (if bool_decide (Ship.position final <> start)
        then <[Ship.position final := r]> (delete start (_ships (board w)))
        else _ships (board w))
       (_initial_ships_order (board w))).

(** ** Worked examples *)

Definition demo_calls : list Call :=
  [ NewShip (Ship.new (Position.mk 0 0) Orientation.N);
    AddShip 0%nat;
    NewShip (Ship.new (Position.mk 9 2) Orientation.E);
    AddShip 1%nat;
    ApplyMoveSequence (Position.mk 0 0)
      [MoveCommand.M; MoveCommand.R; MoveCommand.M; MoveCommand.L;
       MoveCommand.M; MoveCommand.M];
    ApplyShoot (Position.mk 9 2) ].

Definition demo_world : World := run demo_calls (start_world [] 10).

(** A sunk ship asked to move onto another ship: ships at (0,0) and
    (0,1) on a board of size 10, the first one shot. *)
Definition sunk_mover_calls : list Call :=
  [ NewShip (Ship.new (Position.mk 0 0) Orientation.N);
    AddShip 0%nat;
    NewShip (Ship.new (Position.mk 0 1) Orientation.E);
    AddShip 1%nat;
    ApplyShoot (Position.mk 0 0) ].

Definition sunk_mover_world : World :=
  run sunk_mover_calls (start_world [] 10).

(** A ship asked to move across another ship: ships at (0,0) and (0,1) on
    a board of size 10, both afloat. *)
Definition crossing_calls : list Call :=
  [ NewShip (Ship.new (Position.mk 0 0) Orientation.N);
    AddShip 0%nat;
    NewShip (Ship.new (Position.mk 0 1) Orientation.E);
    AddShip 1%nat ].

Definition crossing_world : World :=
  run crossing_calls (start_world [] 10).

(** The two ships of [crossing_world], and a third ship object, at
    (0,1), created but not placed. *)
Definition pending_world : World :=
  run [NewShip (Ship.new (Position.mk 0 1) Orientation.S)] crossing_world.

(** The ship of [crossing_world] at (0,0) after the move M M, and the
    world after a shot at (0,1). *)
Definition crossed_world : World :=
  step (ApplyMoveSequence (Position.mk 0 0) [MoveCommand.M; MoveCommand.M])
    crossing_world.

(** ** Statements about a move *)

(** For a start position, a sequence and a world: whenever
    [_simulate_move], run on the ship found at the start, returns, the
    move raises the collision error exactly when the simulated position
    differs from the start and holds another ship. *)
Definition collision_iff_destination (w : World) (start_pos : Position.t)
    (sequence : list MoveCommand.t) : Prop :=
  forall (r : ref) (final : Ship.t),
    _ships (board w) !! start_pos = Some r ->
    fst (_simulate_move r sequence w) = Return final ->
    ((exists c w',
         apply_move_sequence start_pos sequence w
         = (Raise (Collision (Ship.position final) c), w'))
     <-> (Ship.position final <> start_pos
          /\ exists r', _ships (board w) !! Ship.position final = Some r'
                        /\ r' <> r)).

(** ** Statements about strings *)

(** The last character of a string. *)
Fixpoint last_char (s : string) : option ascii :=
  match s with
  | EmptyString => None
  | String c rest =>
      match rest with
      | EmptyString => Some c
      | String _ _ => last_char rest
      end
  end.

(** [s] ends with [suffix]. *)
Definition ends_with (suffix s : string) : Prop :=
  exists pre, s = String.append pre suffix.

(** ** Counting the commands of a sequence *)

#[global] Instance MoveCommand_eq_dec : EqDecision MoveCommand.t.
Proof. solve_decision. Defined.

(** How many times a command occurs in a sequence. *)
Definition occurrences (c : MoveCommand.t) (sequence : list MoveCommand.t)
  : nat :=
  length (filter (fun c' => c' = c) sequence).

(** ** main.py *)

(** [class OperationType(Enum)] of models.py. *)
Module OperationType.

Inductive t : Set := MOVE | SHOOT.

End OperationType.

(** [ParsedOperation] of parser.py: a tuple of an operation type and a
    position, or of an operation type, a position and a sequence. *)
Inductive ParsedOperation : Set :=
  | Pair (op_type : OperationType.t) (pos : Position.t)
  | Triple (op_type : OperationType.t) (pos : Position.t)
      (sequence : list MoveCommand.t).

(** How [_execute_operation] ends: it returns, or one of its two [assert]
    fails; [BoardError] and [ValueError] are caught inside it.
    [DanglingRef] is the model's answer of [Dangling], passed on. *)
Inductive Executed : Set :=
  | Finished
  | AssertionFailed (msg : string)
  | DanglingRef (r : ref).

(** The [try ... except (BoardError, ValueError)] of [_execute_operation]
    around a call of the board: the error is logged and dropped. *)
Definition logged (c : Exec unit) (w : World) : Executed * World :=
  match c w with
  | (Return _, w') => (Finished, w')
  | (Raise _, w') => (Finished, w')
  | (Dangling r, w') => (DanglingRef r, w')
  end.

(** [_execute_operation] (the index is only logged). *)
Definition _execute_operation (operation : ParsedOperation) (w : World)
  : Executed * World :=
  match operation with
  | Triple OperationType.MOVE start_pos sequence =>
      logged (apply_move_sequence start_pos sequence) w
  | Pair OperationType.MOVE _ =>
      (AssertionFailed "Move operation tuple should have 3 elements", w)
  | Pair OperationType.SHOOT target_pos =>
      logged (apply_shoot target_pos) w
  | Triple OperationType.SHOOT _ _ =>
      (AssertionFailed "Shoot operation tuple should have 2 elements", w)
  end.

(** How the simulation of [main] goes on: with a value, with
    [sys.exit(code)], or, in the model only, without the object of a
    reference. *)
Inductive Main (A : Type) : Type :=
  | Continue (a : A)
  | SysExit (code : Z)
  | NoObject (r : ref).

Arguments Continue {A} a.
Arguments SysExit {A} code.
Arguments NoObject {A} r.

(** [for ship in initial_ships: ... board.add_ship(ship) ...]: the first
    [BoardError] ends the program with [sys.exit(1)]. *)
Fixpoint place_initial_ships (initial_ships : list ref) (w : World)
  : Main World :=
  match initial_ships with
  | [] => Continue w
  | ship :: rest =>
      match add_ship ship w with
      | (Return _, w') => place_initial_ships rest w'
      | (Raise _, _) => SysExit 1
      | (Dangling r, _) => NoObject r
      end
  end.

(** [for i, op in enumerate(operations, start=1): _execute_operation(...)]:
    an [AssertionError] reaches [except Exception] of [main], which ends
    the program with [sys.exit(1)]. *)
Fixpoint execute_operations (operations : list ParsedOperation) (w : World)
  : Main World :=
  match operations with
  | [] => Continue w
  | op :: rest =>
      match _execute_operation op w with
      | (Finished, w') => execute_operations rest w'
      | (AssertionFailed _, _) => SysExit 1
      | (DanglingRef r, _) => NoObject r
      end
  end.

(** The simulation inside [main], from what [_load_simulation_setup]
    returned to what [_write_simulation_results] is given: the board is
    built ([ValueError] ends the program with [sys.exit(1)]), the initial
    ships, which are the ship objects the parser made, are placed in
    order, the operations are executed, the final states are read. *)
Definition main_simulation (size : Z) (initial_ships : list Ship.t)
    (operations : list ParsedOperation) : Main (list string) :=
  match Board_init size with
  | None => SysExit 1
  | Some board =>
      match place_initial_ships (seq 0 (length initial_ships))
              (mkWorld initial_ships board) with
      | Continue w1 =>
          match execute_operations operations w1 with
          | Continue w2 =>
              match get_final_ship_states w2 with
              | (Return states, _) => Continue states
              | (Raise _, _) => SysExit 1
              | (Dangling r, _) => NoObject r
              end
          | SysExit code => SysExit code
          | NoObject r => NoObject r
          end
      | SysExit code => SysExit code
      | NoObject r => NoObject r
      end
  end.

(** The operations [parse_operation] builds: a move with a sequence, a
    shot without. *)
Definition operation_call (operation : ParsedOperation) : option Call :=
  match operation with
  | Triple OperationType.MOVE start_pos sequence =>
      Some (ApplyMoveSequence start_pos sequence)
  | Pair OperationType.SHOOT target_pos => Some (ApplyShoot target_pos)
  | _ => None
  end.

(** The input of the test-suite's end-to-end run. *)
Definition demo_ships : list Ship.t :=
  [ Ship.new (Position.mk 0 0) Orientation.N;
    Ship.new (Position.mk 9 2) Orientation.E ].

Definition demo_operations : list ParsedOperation :=
  [ Triple OperationType.MOVE (Position.mk 0 0)
      [MoveCommand.M; MoveCommand.R; MoveCommand.M; MoveCommand.L;
       MoveCommand.M; MoveCommand.M];
    Pair OperationType.SHOOT (Position.mk 9 2) ].

(** ** parser.py: the move sequence *)

(** The text this part reads is ASCII text: a character is an [ascii]
    below 128.  [str.upper] maps the letters a to z to A to Z and leaves
    every other ASCII character alone. *)
Definition is_ascii (c : ascii) : bool := (nat_of_ascii c <? 128)%nat.

Definition ascii_text (s : string) : Prop :=
  Forall (fun c => is_ascii c = true) (list_ascii_of_string s).

Definition upper_char (c : ascii) : ascii :=
  let n := nat_of_ascii c in
  if ((97 <=? n) && (n <=? 122))%nat then ascii_of_nat (n - 32) else c.

(** [str.upper]. *)
Fixpoint upper (s : string) : string :=
  match s with
  | EmptyString => EmptyString
  | String c rest => String (upper_char c) (upper rest)
  end.

(** [command.name]: the name of a member of [MoveCommand]. *)
Definition MoveCommand_name (command : MoveCommand.t) : string :=
  match command with
  | MoveCommand.L => "L"
  | MoveCommand.R => "R"
  | MoveCommand.M => "M"
  end.

(** [MoveCommand[char]]: the member of that name; [None] is the
    [KeyError]. *)
Definition MoveCommand_getitem (char : ascii) : option MoveCommand.t :=
  if decide (char = "L"%char) then Some MoveCommand.L
  else if decide (char = "R"%char) then Some MoveCommand.R
  else if decide (char = "M"%char) then Some MoveCommand.M
  else None.

(** The loop of [parse_move_sequence] over the characters left of the
    upper-cased string; [inl] is the message of the [ParseError]. *)
Fixpoint parse_move_loop (sequence_str chars : string)
    (commands : list MoveCommand.t) : string + list MoveCommand.t :=
  match chars with
  | EmptyString => inr commands
  | String char rest =>
      match MoveCommand_getitem char with
      | Some command =>
          parse_move_loop sequence_str rest (commands ++ [command])
      | None =>
          inl (String.concat ""
                 ["Invalid character '"; String char EmptyString;
                  "' in move sequence '"; sequence_str; "'"]%string)
      end
  end.

(** [parse_move_sequence]. *)
Definition parse_move_sequence (sequence_str : string)
  : string + list MoveCommand.t :=
  parse_move_loop sequence_str (upper sequence_str) [].

(** [text] is the decimal numeral of [z]: the reader of decimal numerals
    of the standard library reads it, what it reads is worth [z], and it
    is in normal form (no leading zero, no negative zero). *)
Definition decimal_numeral (text : string) (z : Z) : Prop :=
  exists d : Decimal.signed_int,
    NilZero.int_of_string text = Some d
    /\ Z.of_int d = z
    /\ Decimal.norm d = d.

(** The letter of a command, in lower or in upper case. *)
Definition MoveCommand_letter (lower_case : bool) (command : MoveCommand.t)
  : ascii :=
  match command, lower_case with
  | MoveCommand.L, false => "L"
  | MoveCommand.L, true => "l"
  | MoveCommand.R, false => "R"
  | MoveCommand.R, true => "r"
  | MoveCommand.M, false => "M"
  | MoveCommand.M, true => "m"
  end.

(** A sequence written out, each command in the case chosen for it. *)
Fixpoint spell (written : list (bool * MoveCommand.t)) : string :=
  match written with
  | [] => EmptyString
  | (lower_case, command) :: rest =>
      String (MoveCommand_letter lower_case command) (spell rest)
  end.

(** ** Proof tools *)

(** Unfold a call down to the tests it makes. *)
Ltac exec :=
  unfold apply_move_sequence, apply_shoot, add_ship, _simulate_move,
    get_ship_at, get_board, set_ships, set_order, new_ship, deref, modify,
    raise, ret, bind in *;
  simpl in *.

(** Rewrite with the equations at hand that decide a test of the code. *)
Ltac decided rhs :=
  match rhs with
  | Some _ => idtac
  | None => idtac
  | true => idtac
  | false => idtac
  | inl _ => idtac
  | inr _ => idtac
  end.

Ltac follow :=
  repeat (simpl;
          match goal with
          | H : ?l = ?rhs |- context [?l] => decided rhs; rewrite H
          end);
  simpl.

(** Reduce the field accesses of records written out, nothing else. *)
Ltac fields :=
  cbn beta iota delta
    [heap board size _ships _initial_ships_order] in *.

(** Decide a closed statement by running its decision procedure. *)
Ltac by_running := apply (bool_decide_unpack _); vm_compute; reflexivity.

(** * Theorems *)

Example str_afloat :
  Ship.str (Ship.new (Position.mk 1 3) Orientation.N) = "(1, 3, N)"%string.
Proof. reflexivity. Qed.

Example str_sunk :
  Ship.str (Ship.mk (Position.mk 9 2) Orientation.E true)
  = "(9, 2, E) SUNK"%string.
Proof. reflexivity. Qed.

Example message_no_ship :
  message (NoShipFound (Position.mk (-1) 12))
  = "No ship found at starting position Position(x=-1, y=12) for move sequence."%string.
Proof. reflexivity. Qed.

(** The end-to-end run of the test-suite: size 10, ships (0,0,N) and
    (9,2,E), move (0,0) MRMLMM, shoot (9,2). *)
Example demo_final_states :
  fst (get_final_ship_states demo_world)
  = Return ["(1, 3, N)"; "(9, 2, E) SUNK"]%string.
Proof. vm_compute. reflexivity. Qed.

Example demo_wf : wf demo_world.
Proof. apply (bool_decide_unpack _). vm_compute. reflexivity. Qed.

(** ** Geometry *)

(** C7. Rotation algebra: [rotate_left] and [rotate_right] undo each other,
    four turns either way come back to the start, [rotate_left] follows
    N, W, S, E, N and [rotate_right] follows N, E, S, W, N. *)
Theorem rotation_algebra :
  (forall o : Orientation.t,
      Orientation.rotate_left (Orientation.rotate_right o) = o
      /\ Orientation.rotate_right (Orientation.rotate_left o) = o
      /\ Nat.iter 4 Orientation.rotate_left o = o
      /\ Nat.iter 4 Orientation.rotate_right o = o)
  /\ (Orientation.rotate_left Orientation.N = Orientation.W
      /\ Orientation.rotate_left Orientation.W = Orientation.S
      /\ Orientation.rotate_left Orientation.S = Orientation.E
      /\ Orientation.rotate_left Orientation.E = Orientation.N)
  /\ (Orientation.rotate_right Orientation.N = Orientation.E
      /\ Orientation.rotate_right Orientation.E = Orientation.S
      /\ Orientation.rotate_right Orientation.S = Orientation.W
      /\ Orientation.rotate_right Orientation.W = Orientation.N).
Proof.
  split; [intros o; destruct o; repeat split | repeat split].
Qed.

(** C8. Translation geometry: the four unit vectors of [to_vector], and
    [move] adds the vector of the orientation to the position, for every
    integer position: one coordinate moves by one, the other stays. *)
Theorem translation_geometry :
  (Orientation.to_vector Orientation.N = (0, 1)
   /\ Orientation.to_vector Orientation.E = (1, 0)
   /\ Orientation.to_vector Orientation.S = (0, -1)
   /\ Orientation.to_vector Orientation.W = (-1, 0))
  /\ forall (p : Position.t) (o : Orientation.t),
      let q := Position.move p o in
      let v := Orientation.to_vector o in
      q = Position.mk (Position.x p + fst v) (Position.y p + snd v)
      /\ ((Position.y q = Position.y p
           /\ (Position.x q = Position.x p + 1
               \/ Position.x q = Position.x p - 1))
          \/ (Position.x q = Position.x p
              /\ (Position.y q = Position.y p + 1
                  \/ Position.y q = Position.y p - 1))).
Proof.
  split; [repeat split |].
  intros [px py] o; destruct o; cbn; split; try reflexivity.
  - right; split; [|left]; lia.
  - left; split; [|left]; lia.
  - right; split; [|right]; lia.
  - left; split; [|right]; lia.
Qed.

(** ** Running a call *)

(** The simulation raises nothing but the out-of-bounds error of an M
    step. *)
Lemma simulate_loop_error self i cur seq e :
  simulate_loop self i cur seq = inl e ->
  exists p k, e = TargetOutOfBounds p (size self) k.
Proof.
  revert i cur; induction seq as [|c seq IH]; intros i cur H; simpl in H.
  - discriminate.
  - destruct c; eauto.
    destruct (negb _); eauto.
    inversion H; eauto.
Qed.

(** C1. Move atomicity: when [apply_move_sequence] raises, whatever the
    world, the start and the sequence, the world after the call is the
    world before it (every ship, the dictionary and the placement list),
    and the error is one of the three move errors. *)
Theorem move_atomicity (w w' : World) (start_pos : Position.t)
    (sequence : list MoveCommand.t) (e : BoardError) :
  apply_move_sequence start_pos sequence w = (Raise e, w') ->
  w' = w /\ is_move_error e = true.
Proof.
  intros H. exec.
  repeat (case_match; simplify_eq/=); try done.
  split; [reflexivity |].
  match goal with
  | Hs : simulate_loop _ _ _ _ = inl _ |- _ =>
      destruct (simulate_loop_error _ _ _ _ _ Hs) as (p & k & ->)
  end.
  reflexivity.
Qed.


(** C3. Moving a sunk ship: when the ship found at the start is sunk, the
    call returns, raises nothing, and the world (that ship, every other
    ship, the dictionary, the placement list) is as before. *)
Theorem move_sunk_noop (w : World) (start_pos : Position.t)
    (sequence : list MoveCommand.t) (r : ref) (s : Ship.t) :
  _ships (board w) !! start_pos = Some r ->
  heap w !! r = Some s ->
  Ship.sunk s = true ->
  apply_move_sequence start_pos sequence w = (Return tt, w).
Proof.
  intros Hr Hs Hsunk. exec. rewrite Hr. simpl. rewrite Hs. simpl.
  rewrite Hsunk. reflexivity.
Qed.

(** C10. The start of a move is never bounds-checked: whenever no ship is
    stored under the start position, on the board or off it, the call
    raises the "No ship found at starting position" error and leaves the
    world as it was. *)
Theorem move_no_ship (w : World) (start_pos : Position.t)
    (sequence : list MoveCommand.t) :
  _ships (board w) !! start_pos = None ->
  apply_move_sequence start_pos sequence w = (Raise (NoShipFound start_pos), w)
  /\ message (NoShipFound start_pos)
     = String.concat ""
         ["No ship found at starting position "; Position.repr start_pos;
          " for move sequence."]%string.
Proof.
  intros Hnone. split; [| reflexivity].
  exec. rewrite Hnone. reflexivity.
Qed.

(** ** What the invariant gives *)

Lemma keys_agree_lookup (w : World) (p : Position.t) (r : ref) :
  keys_agree w ->
  _ships (board w) !! p = Some r ->
  exists s, heap w !! r = Some s /\ Ship.position s = p.
Proof.
  intros Hk Hp. specialize (Hk p r Hp). simpl in Hk.
  destruct (heap w !! r) as [s|]; simplify_eq/=. eauto.
Qed.

Lemma list_insert_lookup_same {A} (l : list A) (i : nat) (x y : A) :
  l !! i = Some x -> <[i := y]> l !! i = Some y.
Proof.
  intros H. apply list_lookup_insert_eq. eapply lookup_lt_Some, H.
Qed.

(** C4. Shooting: on a well-formed world [apply_shoot] returns (it never
    raises); the board is untouched; a target off the board, an empty
    target and an already sunk ship leave the world as it was; an afloat
    ship at the target has its [sunk] flag set and nothing else changes;
    and a second shot at the same target changes nothing more. *)
Theorem shoot_effect (w : World) (target_pos : Position.t) :
  wf w ->
  exists w',
    apply_shoot target_pos w = (Return tt, w')
    /\ board w' = board w
    /\ (is_within_bounds (board w) target_pos = false -> w' = w)
    /\ (_ships (board w) !! target_pos = None -> w' = w)
    /\ (forall r, _ships (board w) !! target_pos = Some r ->
        is_within_bounds (board w) target_pos = true ->
        exists s, heap w !! r = Some s
          /\ (Ship.sunk s = true -> w' = w)
          /\ (Ship.sunk s = false ->
              heap w' = <[r := Ship.mk (Ship.position s) (Ship.orientation s)
                                  true]> (heap w)
              /\ forall r', r' <> r -> heap w' !! r' = heap w !! r'))
    /\ apply_shoot target_pos w' = (Return tt, w').
Proof.
  intros (Hk & _ & _).
  destruct (is_within_bounds (board w) target_pos) eqn:Hb.
  - destruct (_ships (board w) !! target_pos) as [r|] eqn:Hr.
    + destruct (keys_agree_lookup _ _ _ Hk Hr) as (s & Hs & Hp).
      destruct (Ship.sunk s) eqn:Hsunk.
      * exists w. exec. follow. repeat split; try done.
        intros r' Hr'. simplify_eq. exists s.
        repeat split; try done; congruence.
      * exists (mkWorld (<[r := Ship.sink s]> (heap w)) (board w)).
        exec. follow. repeat split; try done.
        -- intros r' Hr'. simplify_eq. exists s.
           repeat split; try done; try congruence.
           intros r'' Hne. apply list_lookup_insert_ne. done.
        -- rewrite (list_insert_lookup_same _ _ s (Ship.sink s)) by done.
           reflexivity.
    + exists w. exec. follow. repeat split; try done.
  - exists w. exec. follow. repeat split; try done.
Qed.

(** C5. Placement: for a ship object [s] behind [ship] on a well-formed
    world, [add_ship] raises exactly when the position of [s] is off the
    board or is a key of the dictionary; a raise is a placement error and
    leaves the world as it was; otherwise the call returns with [ship]
    stored under its position and appended to the placement list; and in
    every case the ship objects, [s] among them, are left as they were. *)
Theorem add_ship_effect (w : World) (ship : ref) (s : Ship.t) :
  wf w ->
  heap w !! ship = Some s ->
  ((exists e w', add_ship ship w = (Raise e, w'))
   <-> (is_within_bounds (board w) (Ship.position s) = false
        \/ is_Some (_ships (board w) !! Ship.position s)))
  /\ (forall e w', add_ship ship w = (Raise e, w') ->
      w' = w /\ is_placement_error e = true)
  /\ ((~ exists e w', add_ship ship w = (Raise e, w')) ->
      add_ship ship w
      = (Return tt,
         mkWorld (heap w)
           (mkBoard (size (board w))
              (<[Ship.position s := ship]> (_ships (board w)))
              (_initial_ships_order (board w) ++ [ship]))))
  /\ (forall o w', add_ship ship w = (o, w') ->
      heap w' = heap w /\ heap w' !! ship = Some s).
Proof.
  intros (Hk & _ & _) Hs.
  destruct (is_within_bounds (board w) (Ship.position s)) eqn:Hb.
  - destruct (_ships (board w) !! Ship.position s) as [occ|] eqn:Hocc.
    + destruct (keys_agree_lookup _ _ _ Hk Hocc) as (o & Ho & _).
      exec. follow. repeat split; intros; simplify_eq/=; eauto.
      exfalso; eauto.
    + exec. follow. repeat split; intros; simplify_eq/=; eauto.
      * destruct H as (e & w' & He). discriminate.
      * destruct H as [Hf | [x Hx]]; discriminate.
  - exec. follow. repeat split; intros; simplify_eq/=; eauto.
    exfalso; eauto.
Qed.

(** ** The simulation *)

(** The simulated ship ends at the position it began at, or on a cell of
    the board; its [sunk] field is the one it began with. *)
Lemma simulate_loop_final self i cur seq final :
  simulate_loop self i cur seq = inr final ->
  (Ship.position final = Ship.position cur
   \/ is_within_bounds self (Ship.position final) = true)
  /\ Ship.sunk final = Ship.sunk cur.
Proof.
  revert i cur; induction seq as [|c seq IH]; intros i cur H; simpl in H.
  - simplify_eq. auto.
  - destruct c.
    + apply IH in H. exact H.
    + apply IH in H. exact H.
    + destruct (is_within_bounds self
                  (Position.move (Ship.position cur) (Ship.orientation cur)))
        eqn:Hb; simpl in H; [| discriminate].
      apply IH in H. simpl in H. destruct H as [[-> | Hin] Hsunk]; auto.
Qed.

(** What a move does once the simulation has returned: the only test left
    is the one on the destination. *)
Lemma move_outcome (w : World) (start_pos : Position.t)
    (sequence : list MoveCommand.t) (r : ref) (s final : Ship.t) :
  wf w ->
  _ships (board w) !! start_pos = Some r ->
  heap w !! r = Some s ->
  Ship.sunk s = false ->
  simulate_loop (board w) 0
    (Ship.new (Ship.position s) (Ship.orientation s)) sequence = inr final ->
  (Ship.position final <> start_pos
   /\ exists c cs,
       _ships (board w) !! Ship.position final = Some c /\ c <> r
       /\ heap w !! c = Some cs
       /\ apply_move_sequence start_pos sequence w
          = (Raise (Collision (Ship.position final) cs), w))
  \/ (~ (Ship.position final <> start_pos
         /\ exists c, _ships (board w) !! Ship.position final = Some c
                      /\ c <> r)
      /\ apply_move_sequence start_pos sequence w
         = (Return tt, committed w start_pos r s final)).
Proof.
  intros (Hk & _ & _) Hr Hs Hsunk Hsim.
  destruct (keys_agree_lookup _ _ _ Hk Hr) as (s' & Hs' & Hpos).
  assert (s' = s) by congruence; subst s'.
  unfold committed.
  destruct (_ships (board w) !! Ship.position final) as [c|] eqn:Hc.
  - destruct (keys_agree_lookup _ _ _ Hk Hc) as (cs & Hcs & Hcpos).
    destruct (decide (Ship.position final = start_pos)) as [Heq | Hne].
    + right. split; [tauto |].
      exec. follow. rewrite Hpos.
      rewrite (bool_decide_eq_false_2 _) by tauto. simpl.
      follow. rewrite (list_insert_lookup_same _ _ s _ Hs). simpl.
      rewrite list_insert_insert_eq. destruct w as [h [n m l]]; reflexivity.
    + destruct (decide (c = r)) as [-> | Hcr].
      { exfalso. apply Hne. congruence. }
      left. split; [done |]. exists c, cs. repeat split; try done.
      exec. follow. rewrite Hpos.
      rewrite (bool_decide_eq_true_2 _ Hne).
      rewrite (bool_decide_eq_true_2 _ Hcr). simpl. follow. reflexivity.
  - right. split; [intros (_ & c & Hc' & _); discriminate |].
    exec. follow. rewrite (list_insert_lookup_same _ _ s _ Hs). simpl.
    rewrite list_insert_insert_eq. rewrite Hpos.
    destruct (decide (Ship.position final = start_pos)) as [Heq | Hne].
    + rewrite (bool_decide_eq_false_2 _) by tauto. simpl.
      destruct w as [h [n m l]]; reflexivity.
    + rewrite (bool_decide_eq_true_2 _ Hne). simpl. follow.
      rewrite (bool_decide_eq_true_2 _) by reflexivity. simpl.
      reflexivity.
Qed.

(** ** The invariant is kept *)

(** Writing a ship object without changing its position. *)
Lemma heap_update_wf (w : World) (r : ref) (s s' : Ship.t) :
  wf w ->
  heap w !! r = Some s ->
  Ship.position s' = Ship.position s ->
  wf (mkWorld (<[r := s']> (heap w)) (board w)).
Proof.
  intros (Hk & Hb & Ho) Hs Hpos. split; [| split]; [| exact Hb | exact Ho].
  intros p r' Hp. specialize (Hk p r' Hp). fields.
  destruct (decide (r' = r)) as [-> | Hne].
  - rewrite (list_insert_lookup_same _ _ s s' Hs). simpl.
    rewrite Hs in Hk. simpl in Hk. congruence.
  - rewrite list_lookup_insert_ne by done. exact Hk.
Qed.

(** Creating a ship object. *)
Lemma new_ship_wf (w : World) (s : Ship.t) :
  wf w -> wf (mkWorld (heap w ++ [s]) (board w)).
Proof.
  intros (Hk & Hb & Ho). split; [| split]; [| exact Hb | exact Ho].
  intros p r Hp. specialize (Hk p r Hp). fields.
  destruct (heap w !! r) as [x|] eqn:Hx; [| discriminate].
  rewrite (lookup_app_l_Some _ _ _ _ Hx). exact Hk.
Qed.

(** Storing a ship under its own, free, in-bounds position. *)
Lemma placement_wf (w : World) (ship : ref) (s : Ship.t) :
  wf w ->
  heap w !! ship = Some s ->
  is_within_bounds (board w) (Ship.position s) = true ->
  _ships (board w) !! Ship.position s = None ->
  wf (mkWorld (heap w)
        (mkBoard (size (board w))
           (<[Ship.position s := ship]> (_ships (board w)))
           (_initial_ships_order (board w) ++ [ship]))).
Proof.
  intros (Hk & Hb & Hnd & Himg) Hs Hin Hfree.
  assert (Hfresh : ship ∉ map_img (SA := gset ref) (_ships (board w))).
  { rewrite elem_of_map_img. intros (p & Hp).
    destruct (keys_agree_lookup _ _ _ Hk Hp) as (s' & Hs' & Hpos).
    congruence. }
  split; [| split; [| split]]; fields.
  - apply map_Forall_insert_2; [fields; rewrite Hs; reflexivity | exact Hk].
  - apply map_Forall_insert_2; [exact Hin | exact Hb].
  - apply NoDup_app. split; [exact Hnd |]. split; [| apply NoDup_singleton].
    intros x Hx Hx'. apply list_elem_of_singleton in Hx'. subst x.
    apply Hfresh. rewrite <- Himg. apply elem_of_list_to_set. exact Hx.
  - rewrite list_to_set_app_L, Himg.
    rewrite map_img_insert_notin_L by exact Hfree.
    apply set_eq. intros x.
    rewrite !elem_of_union, elem_of_list_to_set, list_elem_of_singleton,
      elem_of_singleton.
    tauto.
Qed.

(** Committing a move whose destination passed the collision test. *)
Lemma committed_wf (w : World) (start_pos : Position.t) (r : ref)
    (s final : Ship.t) :
  wf w ->
  _ships (board w) !! start_pos = Some r ->
  heap w !! r = Some s ->
  (Ship.position final = Ship.position s
   \/ is_within_bounds (board w) (Ship.position final) = true) ->
  ~ (Ship.position final <> start_pos
     /\ exists c, _ships (board w) !! Ship.position final = Some c
                  /\ c <> r) ->
  wf (committed w start_pos r s final).
Proof.
  intros Hwf Hr Hs Hfin Hfree.
  pose proof Hwf as (Hk & Hb & Hnd & Himg).
  destruct (keys_agree_lookup _ _ _ Hk Hr) as (s' & Hs' & Hpos).
  assert (s' = s) by congruence; subst s'.
  unfold committed.
  destruct (decide (Ship.position final = start_pos)) as [Heq | Hne].
  - rewrite (bool_decide_eq_false_2 _) by tauto.
    replace (mkBoard _ _ _) with (board w) by (destruct (board w); done).
    eapply heap_update_wf; eauto. simpl. congruence.
  - rewrite (bool_decide_eq_true_2 _ Hne).
    assert (Hdest : forall c, _ships (board w) !! Ship.position final = Some c
                              -> c = r).
    { intros c Hc. destruct (decide (c = r)); [done |].
      exfalso. apply Hfree. eauto. }
    assert (Hother : forall p r', p <> start_pos ->
                       _ships (board w) !! p = Some r' -> r' <> r).
    { intros p r' Hp Hl ->.
      destruct (keys_agree_lookup _ _ _ Hk Hl) as (s2 & Hs2 & Hpos2).
      congruence. }
    split; [| split; [| split]]; fields.
    + apply map_Forall_insert_2.
      * fields. rewrite (list_insert_lookup_same _ _ s _ Hs). reflexivity.
      * intros p r' Hl. apply lookup_delete_Some in Hl as [Hp Hl].
        fields. rewrite list_lookup_insert_ne.
        -- exact (Hk p r' Hl).
        -- intros Heq. symmetry in Heq. revert Heq.
           apply (Hother p); [congruence | exact Hl].
    + apply map_Forall_insert_2.
      * destruct Hfin as [Hsame | Hin]; [congruence | exact Hin].
      * intros p r' Hl. apply lookup_delete_Some in Hl as [Hp Hl].
        exact (Hb p r' Hl).
    + exact Hnd.
    + rewrite Himg. apply set_eq. intros x. rewrite !elem_of_map_img.
      split.
      * intros (p & Hp).
        destruct (decide (x = r)) as [-> | Hx].
        -- exists (Ship.position final). apply lookup_insert_eq.
        -- exists p. rewrite lookup_insert_ne.
           ++ rewrite lookup_delete_ne; [exact Hp | congruence].
           ++ intros <-. apply Hx. apply Hdest. exact Hp.
      * intros (p & Hp). apply lookup_insert_Some in Hp.
        destruct Hp as [[<- <-] | [Hp Hl]]; [eauto |].
        apply lookup_delete_Some in Hl as [_ Hl]. eauto.
Qed.

(** Every call of a client keeps the invariant, whether it returns or
    raises. *)
Lemma step_wf (c : Call) (w : World) : wf w -> wf (step c w).
Proof.
  intros Hwf. pose proof Hwf as (Hk & Hb & Ho).
  destruct c as [s | ship | start_pos sequence | target_pos];
    unfold step, call.
  - exec. apply new_ship_wf, Hwf.
  - destruct (heap w !! ship) as [s|] eqn:Hs; [| exec; follow; exact Hwf].
    destruct (is_within_bounds (board w) (Ship.position s)) eqn:Hin;
      [| exec; follow; exact Hwf].
    destruct (_ships (board w) !! Ship.position s) as [occ|] eqn:Hocc.
    + destruct (keys_agree_lookup _ _ _ Hk Hocc) as (o & Hoc & _).
      exec. follow. exact Hwf.
    + pose proof (placement_wf w ship s Hwf Hs Hin Hocc) as Hnew.
      exec. follow. exact Hnew.
  - destruct (_ships (board w) !! start_pos) as [r|] eqn:Hr;
      [| exec; follow; exact Hwf].
    destruct (keys_agree_lookup _ _ _ Hk Hr) as (s & Hs & Hpos).
    destruct (Ship.sunk s) eqn:Hsunk; [exec; follow; exact Hwf |].
    destruct (simulate_loop (board w) 0
                (Ship.new (Ship.position s) (Ship.orientation s)) sequence)
      as [e | final] eqn:Hsim; [exec; follow; exact Hwf |].
    destruct (move_outcome w start_pos sequence r s final Hwf Hr Hs Hsunk Hsim)
      as [(_ & c & cs & _ & _ & _ & ->) | (Hfree & ->)]; [exact Hwf |].
    apply committed_wf; try done.
    apply simulate_loop_final in Hsim as [Hfin _]. exact Hfin.
  - destruct (is_within_bounds (board w) target_pos) eqn:Hin;
      [| exec; follow; exact Hwf].
    destruct (_ships (board w) !! target_pos) as [r|] eqn:Hr;
      [| exec; follow; exact Hwf].
    destruct (keys_agree_lookup _ _ _ Hk Hr) as (s & Hs & Hpos).
    destruct (Ship.sunk s) eqn:Hsunk; [exec; follow; exact Hwf |].
    pose proof (heap_update_wf w r s (Ship.sink s) Hwf Hs eq_refl) as Hnew.
    exec. follow. exact Hnew.
Qed.

Lemma run_wf (cs : list Call) (w : World) : wf w -> wf (run cs w).
Proof.
  revert w; induction cs as [|c cs IH]; intros w Hwf; simpl; [exact Hwf |].
  apply IH, step_wf, Hwf.
Qed.

(** A world that holds a new board is well-formed, whatever ship objects
    exist. *)
Lemma start_world_wf (objects : list Ship.t) (n : Z) :
  wf (start_world objects n).
Proof.
  split; [| split; [| split]]; simpl.
  - apply map_Forall_empty.
  - apply map_Forall_empty.
  - apply NoDup_nil_2.
  - rewrite map_img_empty_L. reflexivity.
Qed.

(** C6. The board invariant: from an empty board, after any calls of a
    client (each returned or raised), every key of the dictionary is the
    position of the ship stored under it, no ship is stored under two
    keys, and two placed ships with the same position are the same
    ship. *)
Theorem board_invariant (objects : list Ship.t) (n : Z) (cs : list Call) :
  let w := run cs (start_world objects n) in
  (forall p r, _ships (board w) !! p = Some r ->
     exists s, heap w !! r = Some s /\ Ship.position s = p)
  /\ (forall p q r, _ships (board w) !! p = Some r ->
        _ships (board w) !! q = Some r -> p = q)
  /\ (forall r1 r2 s1 s2,
        r1 ∈ _initial_ships_order (board w) ->
        r2 ∈ _initial_ships_order (board w) ->
        heap w !! r1 = Some s1 -> heap w !! r2 = Some s2 ->
        Ship.position s1 = Ship.position s2 -> r1 = r2).
Proof.
  intros w.
  assert (Hwf : wf w) by apply run_wf, start_world_wf.
  destruct Hwf as (Hk & Hb & Hnd & Himg).
  split; [| split].
  - intros p r Hp. exact (keys_agree_lookup _ _ _ Hk Hp).
  - intros p q r Hp Hq.
    destruct (keys_agree_lookup _ _ _ Hk Hp) as (s & Hs & <-).
    destruct (keys_agree_lookup _ _ _ Hk Hq) as (s' & Hs' & <-).
    congruence.
  - intros r1 r2 s1 s2 H1 H2 Hs1 Hs2 Hpos.
    assert (Hin : forall r, r ∈ _initial_ships_order (board w) ->
                    exists p, _ships (board w) !! p = Some r).
    { intros r Hr. apply (elem_of_map_img (SA := gset nat)).
      rewrite <- Himg. apply elem_of_list_to_set. exact Hr. }
    destruct (Hin r1 H1) as (p1 & Hp1). destruct (Hin r2 H2) as (p2 & Hp2).
    destruct (keys_agree_lookup _ _ _ Hk Hp1) as (t1 & Ht1 & Hq1).
    destruct (keys_agree_lookup _ _ _ Hk Hp2) as (t2 & Ht2 & Hq2).
    assert (p1 = p2) by congruence. congruence.
Qed.

(** ** Collisions *)

Lemma simulate_move_returns (w : World) (r : ref) (s final : Ship.t)
    (sequence : list MoveCommand.t) :
  heap w !! r = Some s ->
  fst (_simulate_move r sequence w) = Return final ->
  simulate_loop (board w) 0
    (Ship.new (Ship.position s) (Ship.orientation s)) sequence = inr final.
Proof.
  intros Hs H. exec. rewrite Hs in H. simpl in H.
  destruct (simulate_loop _ _ _ _) as [e | f]; simpl in H; congruence.
Qed.

(** C2, as stated, fails for a sunk ship: the ship at (0,0) is sunk and
    faces the ship at (0,1); the simulation of M stays on the board and
    ends on that other ship, and the call raises nothing. *)
Lemma collision_not_for_sunk_mover :
  ~ collision_iff_destination sunk_mover_world (Position.mk 0 0)
      [MoveCommand.M].
Proof.
  intros H.
  specialize (H 0%nat (Ship.new (Position.mk 0 1) Orientation.N)
                eq_refl eq_refl).
  destruct H as [_ H].
  destruct H as (c & w' & Hraise).
  - split; [discriminate |]. exists 1%nat. split; [reflexivity | discriminate].
  - vm_compute in Hraise. discriminate.
Qed.

(** C2, amended. Only the destination is tested for a collision: for an
    afloat ship found at the start, on a well-formed world, whenever the
    simulation returns, the move raises the collision error exactly when
    the simulated position differs from the start and holds another
    ship; it raises nothing else, whatever ships lie on the cells in
    between; and a sequence that ends where it started returns. *)
Theorem collision_only_at_destination (w : World) (start_pos : Position.t)
    (sequence : list MoveCommand.t) (r : ref) (s : Ship.t) :
  wf w ->
  _ships (board w) !! start_pos = Some r ->
  heap w !! r = Some s ->
  Ship.sunk s = false ->
  collision_iff_destination w start_pos sequence
  /\ forall final, fst (_simulate_move r sequence w) = Return final ->
       (forall e w', apply_move_sequence start_pos sequence w = (Raise e, w') ->
          exists c, e = Collision (Ship.position final) c)
       /\ (Ship.position final = start_pos ->
           apply_move_sequence start_pos sequence w
           = (Return tt, committed w start_pos r s final)).
Proof.
  intros Hwf Hr Hs Hsunk. split.
  - intros r0 final Hr0 Hsim. assert (r0 = r) by congruence; subst r0.
    apply (simulate_move_returns w r s) in Hsim; [| exact Hs].
    destruct (move_outcome w start_pos sequence r s final Hwf Hr Hs Hsunk Hsim)
      as [(Hne & c & cs & Hc & Hcr & Hcs & Heq) | (Hfree & Heq)].
    + split; [intros _ | intros _; eauto].
      split; [exact Hne | eauto].
    + split.
      * intros (c & w' & Hraise). congruence.
      * intros Hcond. exfalso. apply Hfree. exact Hcond.
  - intros final Hsim.
    apply (simulate_move_returns w r s) in Hsim; [| exact Hs].
    destruct (move_outcome w start_pos sequence r s final Hwf Hr Hs Hsunk Hsim)
      as [(Hne & c & cs & Hc & Hcr & Hcs & Heq) | (Hfree & Heq)].
    + split.
      * intros e w' Hraise. exists cs. congruence.
      * intros Hsame. contradiction.
    + split.
      * intros e w' Hraise. congruence.
      * intros _. exact Heq.
Qed.

(** The ship at (0,0) crosses the ship at (0,1) and stops at (0,2): the
    move returns, and the ship is stored under (0,2). *)
Example crossing_succeeds :
  let '(o, w') :=
    apply_move_sequence (Position.mk 0 0) [MoveCommand.M; MoveCommand.M]
      crossing_world in
  o = Return tt
  /\ _ships (board w') !! Position.mk 0 2 = Some 0%nat
  /\ _ships (board w') !! Position.mk 0 1 = Some 1%nat
  /\ _ships (board w') !! Position.mk 0 0 = None.
Proof. vm_compute. repeat split. Qed.

(** ** The final states *)

(** A call leaves the placement list alone, except [add_ship] when it
    returns, which appends its ship. *)
Lemma step_order (c : Call) (w : World) :
  _initial_ships_order (board (step c w))
  = _initial_ships_order (board w)
    ++ match c, fst (call c w) with
       | AddShip ship, Return _ => [ship]
       | _, _ => []
       end.
Proof.
  destruct c as [s | ship | start_pos sequence | target_pos];
    unfold step, call; exec.
  - rewrite app_nil_r. reflexivity.
  - repeat (case_match; simplify_eq/=); rewrite ?app_nil_r; reflexivity.
  - repeat (case_match; simplify_eq/=); rewrite ?app_nil_r; reflexivity.
  - repeat (case_match; simplify_eq/=); rewrite ?app_nil_r; reflexivity.
Qed.

Lemma run_order (cs : list Call) (w : World) :
  _initial_ships_order (board (run cs w))
  = _initial_ships_order (board w) ++ placed cs w.
Proof.
  revert w; induction cs as [|c cs IH]; intros w; simpl.
  - rewrite app_nil_r. reflexivity.
  - rewrite IH, step_order.
    destruct c; try (rewrite app_nil_r; reflexivity).
    cbn [call]. destruct (fst (add_ship ship w));
      rewrite <- ?app_assoc, ?app_nil_r; reflexivity.
Qed.

(** Every ship of the placement list exists. *)
Lemma order_allocated (w : World) :
  wf w ->
  Forall (fun r => is_Some (heap w !! r)) (_initial_ships_order (board w)).
Proof.
  intros (Hk & _ & _ & Himg). apply Forall_forall. intros r Hr.
  assert (Hin : r ∈ map_img (SA := gset nat) (_ships (board w))).
  { rewrite <- Himg. apply elem_of_list_to_set. exact Hr. }
  apply elem_of_map_img in Hin as (p & Hp).
  destruct (keys_agree_lookup _ _ _ Hk Hp) as (s & Hs & _). eauto.
Qed.

(** The comprehension returns the string of each ship, in the order of
    the list, and changes nothing. *)
Lemma str_each_returns (w : World) (l : list nat) :
  Forall (fun r => is_Some (heap w !! r)) l ->
  exists ships,
    Forall2 (fun r s => heap w !! r = Some s) l ships
    /\ str_each l w = (Return (map Ship.str ships), w).
Proof.
  induction l as [|r l IH]; intros Hall.
  - exists []. split; [constructor | reflexivity].
  - apply Forall_cons in Hall as [[s Hs] Hall].
    destruct (IH Hall) as (ships & Hf & Heq).
    exists (s :: ships). split; [constructor; assumption |].
    simpl. exec. rewrite Hs. simpl. rewrite Heq. reflexivity.
Qed.

Lemma last_char_append (a b : string) :
  is_Some (last_char b) -> last_char (String.append a b) = last_char b.
Proof.
  intros Hb. induction a as [|c a IH]; simpl; [reflexivity |].
  rewrite IH. destruct (String.append a b) eqn:Hab; [| reflexivity].
  rewrite <- IH in Hb. simpl in Hb. destruct Hb as [x Hx]. discriminate.
Qed.

Lemma string_app_nil_r (a : string) : String.append a "" = a.
Proof.
  induction a as [|c a IH]; [reflexivity |].
  change (String c (String.append a "") = String c a). f_equal. exact IH.
Qed.

Lemma string_app_assoc (a b c : string) :
  String.append (String.append a b) c = String.append a (String.append b c).
Proof.
  induction a as [|x a IH]; [reflexivity |].
  change (String x (String.append (String.append a b) c)
          = String x (String.append a (String.append b c))).
  f_equal. exact IH.
Qed.

Lemma last_char_append_some (a b : string) (c : ascii) :
  last_char b = Some c -> last_char (String.append a b) = Some c.
Proof.
  intros Hb. rewrite last_char_append; [exact Hb | rewrite Hb; eauto].
Qed.

(** The shape of the rendering: the two coordinates and the name of the
    orientation, between brackets, separated by a comma and a space. *)
Lemma pose_str_shape (s : Ship.t) :
  Ship.pose_str s
  = ("(" ++ str_int (Position.x (Ship.position s)) ++ ", "
         ++ str_int (Position.y (Ship.position s)) ++ ", "
         ++ Orientation.name (Ship.orientation s) ++ ")")%string.
Proof. reflexivity. Qed.

Lemma pose_str_last (s : Ship.t) : last_char (Ship.pose_str s) = Some ")"%char.
Proof.
  rewrite pose_str_shape.
  repeat apply last_char_append_some. reflexivity.
Qed.

(** The rendering ends with " SUNK" exactly when the ship is sunk. *)
Lemma str_suffix (s : Ship.t) :
  ends_with " SUNK" (Ship.str s) <-> Ship.sunk s = true.
Proof.
  unfold Ship.str, ends_with. destruct (Ship.sunk s); split; try done.
  - intros _. eauto.
  - intros (pre & Heq).
    assert (Hlast : last_char (String.append (Ship.pose_str s) "")
                    = Some "K"%char).
    { rewrite Heq. apply last_char_append_some. reflexivity. }
    rewrite string_app_nil_r, pose_str_last in Hlast. discriminate.
Qed.

Lemma to_int_not_nil (z : Z) :
  Z.to_int z <> Decimal.Pos Decimal.Nil
  /\ Z.to_int z <> Decimal.Neg Decimal.Nil.
Proof.
  destruct z as [|p|p]; simpl; split; try discriminate;
    intros H; inversion H as [Hp];
    exact (DecimalPos.Unsigned.to_uint_nonnil p Hp).
Qed.

(** [str] of an integer is its decimal numeral. *)
Lemma str_int_numeral (z : Z) : decimal_numeral (str_int z) z.
Proof.
  exists (Z.to_int z). destruct (to_int_not_nil z) as [H1 H2].
  split; [exact (NilZero.isi (Z.to_int z) H1 H2) |].
  split; [apply DecimalZ.of_to |].
  rewrite <- DecimalZ.to_of, DecimalZ.of_to. reflexivity.
Qed.

(** C9. The final states: after any calls of a client on a new board,
    [get_final_ship_states] returns one string for each ship whose
    [add_ship] returned, in the order of those calls, no ship twice; the
    string of a ship is "(x, y, ORIENTATION)" for the position and the
    orientation it has now, where x and y are written as the decimal
    numerals of the two coordinates and ORIENTATION is the letter N, E, S
    or W of the orientation, followed by " SUNK" if the ship is sunk and
    by nothing if it is not, so it ends with " SUNK" exactly when the ship
    is sunk. *)
Theorem final_states (objects : list Ship.t) (n : Z) (cs : list Call) :
  let w0 := start_world objects n in
  let w := run cs w0 in
  NoDup (placed cs w0)
  /\ exists ships : list Ship.t,
      Forall2 (fun r s => heap w !! r = Some s) (placed cs w0) ships
      /\ get_final_ship_states w = (Return (map Ship.str ships), w)
      /\ Forall
           (fun s =>
              Ship.str s
              = ("(" ++ str_int (Position.x (Ship.position s)) ++ ", "
                     ++ str_int (Position.y (Ship.position s)) ++ ", "
                     ++ Orientation.name (Ship.orientation s) ++ ")"
                     ++ (if Ship.sunk s then " SUNK" else ""))%string
              /\ (ends_with " SUNK" (Ship.str s) <-> Ship.sunk s = true)
              /\ (exists text_x text_y letter : string,
                    Ship.str s
                    = ("(" ++ text_x ++ ", " ++ text_y ++ ", " ++ letter
                           ++ ")"
                           ++ (if Ship.sunk s then " SUNK" else ""))%string
                    /\ decimal_numeral text_x (Position.x (Ship.position s))
                    /\ decimal_numeral text_y (Position.y (Ship.position s))
                    /\ letter
                       = match Ship.orientation s with
                         | Orientation.N => "N"
                         | Orientation.E => "E"
                         | Orientation.S => "S"
                         | Orientation.W => "W"
                         end%string))
           ships.
Proof.
  intros w0 w.
  assert (Hwf : wf w) by apply run_wf, start_world_wf.
  assert (Horder : _initial_ships_order (board w) = placed cs w0).
  { unfold w. rewrite run_order. reflexivity. }
  split.
  - rewrite <- Horder. apply Hwf.
  - destruct (str_each_returns w _ (order_allocated w Hwf))
      as (ships & Hf & Heq).
    rewrite Horder in Hf. exists ships. split; [exact Hf |]. split.
    + unfold get_final_ship_states. exec. exact Heq.
    + apply Forall_forall. intros s _.
      assert (Hshape : Ship.str s
                = ("(" ++ str_int (Position.x (Ship.position s)) ++ ", "
                       ++ str_int (Position.y (Ship.position s)) ++ ", "
                       ++ Orientation.name (Ship.orientation s) ++ ")"
                       ++ (if Ship.sunk s then " SUNK" else ""))%string).
      { unfold Ship.str. rewrite pose_str_shape.
        rewrite !string_app_assoc. reflexivity. }
      split; [exact Hshape |]. split; [apply str_suffix |].
      exists (str_int (Position.x (Ship.position s))),
        (str_int (Position.y (Ship.position s))),
        (Orientation.name (Ship.orientation s)).
      split; [exact Hshape |].
      split; [apply str_int_numeral |]. split; [apply str_int_numeral |].
      destruct (Ship.orientation s); reflexivity.
Qed.

(** ** The theorems at work *)

(** [Board(size)] with a positive size is the empty board. *)
Lemma Board_init_positive (n : Z) :
  0 < n -> Board_init n = Some (empty_board n).
Proof.
  intros Hn. unfold Board_init.
  destruct (n <=? 0) eqn:Hle; [lia | reflexivity].
Qed.

(** A move that ends on the other ship raises and changes nothing. *)
Lemma move_atomicity_witness :
  apply_move_sequence (Position.mk 0 0) [MoveCommand.M] crossing_world
  = (Raise (Collision (Position.mk 0 1)
              (Ship.new (Position.mk 0 1) Orientation.E)),
     crossing_world)
  /\ (crossing_world = crossing_world
      /\ is_move_error
           (Collision (Position.mk 0 1)
              (Ship.new (Position.mk 0 1) Orientation.E)) = true).
Proof.
  split; [vm_compute; reflexivity |].
  apply (move_atomicity crossing_world crossing_world (Position.mk 0 0)
           [MoveCommand.M]).
  vm_compute; reflexivity.
Defined.

(** The sunk ship at (0,0) does not move. *)
Lemma move_sunk_noop_witness :
  _ships (board sunk_mover_world) !! Position.mk 0 0 = Some 0%nat
  /\ heap sunk_mover_world !! 0%nat
     = Some (Ship.mk (Position.mk 0 0) Orientation.N true)
  /\ Ship.sunk (Ship.mk (Position.mk 0 0) Orientation.N true) = true
  /\ apply_move_sequence (Position.mk 0 0)
       [MoveCommand.R; MoveCommand.M] sunk_mover_world
     = (Return tt, sunk_mover_world).
Proof.
  do 3 (split; [reflexivity |]).
  apply (move_sunk_noop sunk_mover_world (Position.mk 0 0)
           [MoveCommand.R; MoveCommand.M] 0%nat
           (Ship.mk (Position.mk 0 0) Orientation.N true));
    reflexivity.
Defined.

(** A move from a start off the board raises the "no ship" error. *)
Lemma move_no_ship_witness :
  _ships (board demo_world) !! Position.mk (-1) 12 = None
  /\ is_within_bounds (board demo_world) (Position.mk (-1) 12) = false
  /\ apply_move_sequence (Position.mk (-1) 12) [MoveCommand.M] demo_world
     = (Raise (NoShipFound (Position.mk (-1) 12)), demo_world).
Proof.
  split; [reflexivity |]. split; [reflexivity |].
  apply (move_no_ship demo_world (Position.mk (-1) 12) [MoveCommand.M]).
  reflexivity.
Defined.

(** A shot at the afloat ship at (0,1) returns. *)
Lemma shoot_effect_witness :
  wf crossing_world
  /\ exists w',
      apply_shoot (Position.mk 0 1) crossing_world = (Return tt, w')
      /\ board w' = board crossing_world
      /\ apply_shoot (Position.mk 0 1) w' = (Return tt, w').
Proof.
  assert (Hwf : wf crossing_world) by by_running.
  split; [exact Hwf |].
  destruct (shoot_effect crossing_world (Position.mk 0 1) Hwf)
    as (w' & Hshot & Hboard & _ & _ & _ & Hagain).
  exists w'. repeat split; assumption.
Defined.

(** Placing the third ship on the cell of the second raises. *)
Lemma add_ship_effect_witness :
  wf pending_world
  /\ heap pending_world !! 2%nat
     = Some (Ship.new (Position.mk 0 1) Orientation.S)
  /\ ((exists e w', add_ship 2%nat pending_world = (Raise e, w'))
      <-> (is_within_bounds (board pending_world) (Position.mk 0 1) = false
           \/ is_Some (_ships (board pending_world) !! Position.mk 0 1))).
Proof.
  assert (Hwf : wf pending_world) by by_running.
  split; [exact Hwf |]. split; [reflexivity |].
  apply (add_ship_effect pending_world 2%nat
           (Ship.new (Position.mk 0 1) Orientation.S) Hwf eq_refl).
Defined.

(** The ship at (0,0) crosses (0,1): the collision test is the one of
    the destination. *)
Lemma collision_only_at_destination_witness :
  wf crossing_world
  /\ _ships (board crossing_world) !! Position.mk 0 0 = Some 0%nat
  /\ heap crossing_world !! 0%nat
     = Some (Ship.new (Position.mk 0 0) Orientation.N)
  /\ Ship.sunk (Ship.new (Position.mk 0 0) Orientation.N) = false
  /\ collision_iff_destination crossing_world (Position.mk 0 0)
       [MoveCommand.M; MoveCommand.M].
Proof.
  assert (Hwf : wf crossing_world) by by_running.
  split; [exact Hwf |]. do 3 (split; [reflexivity |]).
  apply (collision_only_at_destination crossing_world (Position.mk 0 0)
           [MoveCommand.M; MoveCommand.M] 0%nat
           (Ship.new (Position.mk 0 0) Orientation.N) Hwf);
    reflexivity.
Defined.

(** * Further properties of the code *)

(** ** Geometry, further *)

(** X1. Turning and direction: [rotate_left] turns the vector of an
    orientation a quarter turn counter-clockwise, (dx, dy) to (-dy, dx),
    and [rotate_right] a quarter turn clockwise, (dx, dy) to (dy, -dx). *)
Theorem rotation_turns_vector (o : Orientation.t) :
  let '(dx, dy) := Orientation.to_vector o in
  Orientation.to_vector (Orientation.rotate_left o) = (- dy, dx)
  /\ Orientation.to_vector (Orientation.rotate_right o) = (dy, - dx).
Proof. destruct o; split; reflexivity. Qed.

(** X2. Steps cancel and commute: a step in an orientation followed by a
    step in the orientation two turns away comes back to the position,
    and two steps can be taken in either order. *)
Theorem position_move_algebra (p : Position.t) (a b : Orientation.t) :
  Position.move (Position.move p a)
    (Orientation.rotate_left (Orientation.rotate_left a)) = p
  /\ Position.move (Position.move p a) b
     = Position.move (Position.move p b) a.
Proof.
  destruct p as [px py]. split.
  - destruct a; cbn; f_equal; lia.
  - destruct a, b; cbn; f_equal; lia.
Qed.

(** ** The simulation, further *)

Lemma simulate_loop_concat (self : Board) (i : Z) (cur : Ship.t)
    (s1 s2 : list MoveCommand.t) :
  simulate_loop self i cur (s1 ++ s2)
  = match simulate_loop self i cur s1 with
    | inl e => inl e
    | inr mid => simulate_loop self (i + Z.of_nat (length s1)) mid s2
    end.
Proof.
  revert i cur; induction s1 as [|c s1 IH]; intros i cur.
  - simpl. f_equal. lia.
  - cbn [app length simulate_loop].
    replace (i + Z.of_nat (S (length s1)))
      with (i + 1 + Z.of_nat (length s1)) by lia.
    destruct c; try apply IH.
    destruct (negb _); [reflexivity | apply IH].
Qed.

(** X3. The simulation of a concatenation: simulating [s1 ++ s2] is
    simulating [s1] and, when that returns, simulating [s2] from the state
    reached, the step numbers going on from the length of [s1]; when the
    simulation of [s1] raises, so does the whole, with the same error. *)
Theorem simulate_loop_app (self : Board) (i : Z) (cur : Ship.t)
    (s1 s2 : list MoveCommand.t) :
  simulate_loop self i cur (s1 ++ s2)
  = match simulate_loop self i cur s1 with
    | inl e => inl e
    | inr mid => simulate_loop self (i + Z.of_nat (length s1)) mid s2
    end.
Proof. apply simulate_loop_concat. Qed.

(** X4. The error of the simulation names the first step that leaves the
    board: when the simulation raises, the error carries a step number
    [k + 1] (counting from 1) such that command [k] is an M, the [k]
    commands before it simulate without error, and the position carried
    is the step forward from the state they reach, which is off the
    board. *)
Theorem simulate_loop_first_breach (self : Board) (cur : Ship.t)
    (sequence : list MoveCommand.t) (e : BoardError) :
  simulate_loop self 0 cur sequence = inl e ->
  exists (k : nat) (before : Ship.t),
    sequence !! k = Some MoveCommand.M
    /\ simulate_loop self 0 cur (take k sequence) = inr before
    /\ is_within_bounds self
         (Position.move (Ship.position before) (Ship.orientation before))
       = false
    /\ e = TargetOutOfBounds
             (Position.move (Ship.position before) (Ship.orientation before))
             (size self) (Z.of_nat k + 1).
Proof.
  assert (Hgen : forall seq i c,
    simulate_loop self i c seq = inl e ->
    exists (k : nat) (before : Ship.t),
      seq !! k = Some MoveCommand.M
      /\ simulate_loop self i c (take k seq) = inr before
      /\ is_within_bounds self
           (Position.move (Ship.position before) (Ship.orientation before))
         = false
      /\ e = TargetOutOfBounds
               (Position.move (Ship.position before) (Ship.orientation before))
               (size self) (i + Z.of_nat k + 1)).
  { induction seq as [|c seq IH]; intros i st H; simpl in H; [discriminate |].
    destruct c.
    - destruct (IH _ _ H) as (k & b & Hk & Hpre & Hout & He).
      exists (S k), b. repeat split; try assumption.
      subst e. f_equal. lia.
    - destruct (IH _ _ H) as (k & b & Hk & Hpre & Hout & He).
      exists (S k), b. repeat split; try assumption.
      subst e. f_equal. lia.
    - destruct (is_within_bounds self
                  (Position.move (Ship.position st) (Ship.orientation st)))
        eqn:Hin; simpl in H.
      + destruct (IH _ _ H) as (k & b & Hk & Hpre & Hout & He).
        exists (S k), b. repeat split; try assumption.
        * simpl. rewrite Hin. simpl. exact Hpre.
        * subst e. f_equal. lia.
      + exists 0%nat, st. repeat split; try assumption.
        inversion H. f_equal. lia. }
  intros H. destruct (Hgen _ _ _ H) as (k & b & Hk & Hpre & Hout & He).
  exists k, b. repeat split; assumption.
Qed.

Lemma rotations_commute (o : Orientation.t) :
  Orientation.rotate_left (Orientation.rotate_right o)
  = Orientation.rotate_right (Orientation.rotate_left o).
Proof. destruct o; reflexivity. Qed.

Lemma iter_left_right (l : nat) (o : Orientation.t) :
  Nat.iter l Orientation.rotate_left (Orientation.rotate_right o)
  = Orientation.rotate_right (Nat.iter l Orientation.rotate_left o).
Proof.
  induction l as [|l IH]; simpl; [reflexivity |].
  rewrite IH. apply rotations_commute.
Qed.

Lemma occurrences_cons (c d : MoveCommand.t) (seq : list MoveCommand.t) :
  occurrences c (d :: seq)
  = ((if decide (d = c) then 1 else 0) + occurrences c seq)%nat.
Proof.
  unfold occurrences. rewrite filter_cons.
  destruct (decide (d = c)); reflexivity.
Qed.

(** X5. Where the simulated ship faces: when the simulation returns, the
    final orientation is the starting one turned left once for each L of
    the sequence and right once for each R, whatever their order and
    wherever the M's are; and a sequence without any M always returns,
    with the position it started from. *)
Theorem simulate_loop_orientation (self : Board) (i : Z) (cur : Ship.t)
    (sequence : list MoveCommand.t) :
  (forall final, simulate_loop self i cur sequence = inr final ->
     Ship.orientation final
     = Nat.iter (occurrences MoveCommand.R sequence) Orientation.rotate_right
         (Nat.iter (occurrences MoveCommand.L sequence)
            Orientation.rotate_left (Ship.orientation cur)))
  /\ (occurrences MoveCommand.M sequence = 0%nat ->
      exists final, simulate_loop self i cur sequence = inr final
                    /\ Ship.position final = Ship.position cur).
Proof.
  split.
  - revert i cur; induction sequence as [|c seq IH]; intros i cur final H;
      simpl in H.
    + inversion H. reflexivity.
    + rewrite !occurrences_cons. destruct c.
      * apply IH in H. rewrite H. simpl.
        rewrite <- Nat.iter_succ_r. reflexivity.
      * apply IH in H. rewrite H. simpl.
        rewrite iter_left_right, <- Nat.iter_succ_r. reflexivity.
      * destruct (negb _); [discriminate |].
        apply IH in H. rewrite H. reflexivity.
  - revert i cur; induction sequence as [|c seq IH]; intros i cur Hno.
    + exists cur. split; reflexivity.
    + rewrite occurrences_cons in Hno. destruct c; simpl in Hno.
      * destruct (IH (i + 1) (Ship.rotate_left cur) Hno) as (f & Hf & Hp).
        exists f. split; [exact Hf | exact Hp].
      * destruct (IH (i + 1) (Ship.rotate_right cur) Hno) as (f & Hf & Hp).
        exists f. split; [exact Hf | exact Hp].
      * discriminate.
Qed.

Lemma move_in_bounds_step (p : Position.t) (o : Orientation.t) :
  Z.abs (Position.x (Position.move p o) - Position.x p)
  + Z.abs (Position.y (Position.move p o) - Position.y p) = 1.
Proof. destruct p as [px py], o; cbn; lia. Qed.

(** X6. The simulated ship stays on the board and goes no further than
    its M's: when the simulation returns, the final position is at most
    as many cells from the start (counting along the two axes) as the
    sequence has M's, and it is a cell of the board if the start was. *)
Theorem simulate_loop_reach (self : Board) (i : Z) (cur final : Ship.t)
    (sequence : list MoveCommand.t) :
  simulate_loop self i cur sequence = inr final ->
  Z.abs (Position.x (Ship.position final) - Position.x (Ship.position cur))
  + Z.abs (Position.y (Ship.position final) - Position.y (Ship.position cur))
    <= Z.of_nat (occurrences MoveCommand.M sequence)
  /\ (is_within_bounds self (Ship.position cur) = true ->
      is_within_bounds self (Ship.position final) = true).
Proof.
  revert i cur; induction sequence as [|c seq IH]; intros i cur H; simpl in H.
  - inversion H. split; [unfold occurrences; simpl; lia | auto].
  - rewrite occurrences_cons. destruct c.
    + apply IH in H. simpl in H. destruct H as [Hd Hb]. split; [lia | exact Hb].
    + apply IH in H. simpl in H. destruct H as [Hd Hb]. split; [lia | exact Hb].
    + destruct (is_within_bounds self
                  (Position.move (Ship.position cur) (Ship.orientation cur)))
        eqn:Hin; simpl in H; [| discriminate].
      apply IH in H. simpl in H. destruct H as [Hd Hb].
      pose proof (move_in_bounds_step (Ship.position cur)
                    (Ship.orientation cur)) as Hstep.
      split; [| intros _; apply Hb, Hin].
      destruct (decide (MoveCommand.M = MoveCommand.M)); [| done].
      lia.
Qed.

(** ** Moves, further *)

(** A move whose simulation raises re-raises the error of the simulation
    and changes nothing. *)
Lemma move_simulation_raises (w : World) (start_pos : Position.t)
    (sequence : list MoveCommand.t) (r : ref) (s : Ship.t) (e : BoardError) :
  _ships (board w) !! start_pos = Some r ->
  heap w !! r = Some s ->
  Ship.sunk s = false ->
  simulate_loop (board w) 0
    (Ship.new (Ship.position s) (Ship.orientation s)) sequence = inl e ->
  apply_move_sequence start_pos sequence w = (Raise e, w).
Proof.
  intros Hr Hs Hsunk Hsim. exec. follow. reflexivity.
Qed.

(** A move of an afloat ship that returns went through the simulation
    and the collision test, and committed. *)
Lemma move_returns_committed (w w' : World) (start_pos : Position.t)
    (sequence : list MoveCommand.t) (r : ref) (s : Ship.t) :
  wf w ->
  _ships (board w) !! start_pos = Some r ->
  heap w !! r = Some s ->
  Ship.sunk s = false ->
  apply_move_sequence start_pos sequence w = (Return tt, w') ->
  exists final,
    simulate_loop (board w) 0
      (Ship.new (Ship.position s) (Ship.orientation s)) sequence = inr final
    /\ ~ (Ship.position final <> start_pos
          /\ exists c, _ships (board w) !! Ship.position final = Some c
                       /\ c <> r)
    /\ w' = committed w start_pos r s final.
Proof.
  intros Hwf Hr Hs Hsunk Hret.
  destruct (simulate_loop (board w) 0
              (Ship.new (Ship.position s) (Ship.orientation s)) sequence)
    as [e | final] eqn:Hsim.
  - rewrite (move_simulation_raises w start_pos sequence r s e) in Hret;
      try assumption.
    discriminate.
  - exists final. split; [reflexivity |].
    destruct (move_outcome w start_pos sequence r s final Hwf Hr Hs Hsunk Hsim)
      as [(_ & c & cs & _ & _ & _ & Heq) | (Hfree & Heq)].
    + rewrite Heq in Hret. discriminate.
    + rewrite Heq in Hret. split; [exact Hfree | congruence].
Qed.

(** X7. What a returned move leaves behind: after a move of an afloat
    ship that returns, the ship is found at the simulated final position,
    with the simulated orientation and still afloat; its old cell is free
    if it left it; every other cell holds what it held, every other ship
    object is as it was, and the placement list and the size are
    unchanged. *)
Theorem move_returns_effect (w w' : World) (start_pos : Position.t)
    (sequence : list MoveCommand.t) (r : ref) (s : Ship.t) :
  wf w ->
  _ships (board w) !! start_pos = Some r ->
  heap w !! r = Some s ->
  Ship.sunk s = false ->
  apply_move_sequence start_pos sequence w = (Return tt, w') ->
  exists final,
    fst (_simulate_move r sequence w) = Return final
    /\ heap w' !! r
       = Some (Ship.mk (Ship.position final) (Ship.orientation final) false)
    /\ get_ship_at (Ship.position final) w' = (Return (Some r), w')
    /\ (Ship.position final <> start_pos ->
        get_ship_at start_pos w' = (Return None, w'))
    /\ (forall p, p <> start_pos -> p <> Ship.position final ->
        _ships (board w') !! p = _ships (board w) !! p)
    /\ (forall r', r' <> r -> heap w' !! r' = heap w !! r')
    /\ _initial_ships_order (board w') = _initial_ships_order (board w)
    /\ size (board w') = size (board w).
Proof.
  intros Hwf Hr Hs Hsunk Hret.
  destruct (move_returns_committed w w' start_pos sequence r s
              Hwf Hr Hs Hsunk Hret) as (final & Hsim & Hfree & ->).
  exists final. unfold committed.
  split; [exec; follow; reflexivity |].
  split; [fields; rewrite (list_insert_lookup_same _ _ s _ Hs), Hsunk;
          reflexivity |].
  destruct (decide (Ship.position final = start_pos)) as [Heq | Hne].
  - rewrite (bool_decide_eq_false_2 _) by tauto.
    repeat split; try done.
    + exec. rewrite Heq, Hr. reflexivity.
    + intros r' Hr'. fields. apply list_lookup_insert_ne. done.
  - rewrite (bool_decide_eq_true_2 _ Hne).
    repeat split; try done.
    + exec. rewrite lookup_insert_eq. reflexivity.
    + intros _. exec. rewrite lookup_insert_ne by done.
      rewrite lookup_delete_eq. reflexivity.
    + intros p Hp1 Hp2. fields. rewrite lookup_insert_ne by done.
      rewrite lookup_delete_ne by done. reflexivity.
    + intros r' Hr'. fields. apply list_lookup_insert_ne. done.
Qed.

Lemma move_pose_fixed (w : World) (start_pos : Position.t)
    (sequence : list MoveCommand.t) (r : ref) (s final : Ship.t) :
  wf w ->
  _ships (board w) !! start_pos = Some r ->
  heap w !! r = Some s ->
  Ship.sunk s = false ->
  simulate_loop (board w) 0
    (Ship.new (Ship.position s) (Ship.orientation s)) sequence = inr final ->
  Ship.position final = Ship.position s ->
  Ship.orientation final = Ship.orientation s ->
  apply_move_sequence start_pos sequence w = (Return tt, w).
Proof.
  intros Hwf Hr Hs Hsunk Hsim Hpos Hori.
  pose proof Hwf as (Hk & _ & _).
  destruct (keys_agree_lookup _ _ _ Hk Hr) as (s' & Hs' & Hstart).
  assert (s' = s) by congruence; subst s'.
  destruct (move_outcome w start_pos sequence r s final Hwf Hr Hs Hsunk Hsim)
    as [(Hne & _) | (_ & Heq)]; [congruence |].
  rewrite Heq. f_equal. unfold committed.
  rewrite (bool_decide_eq_false_2 _) by (intros Hn; apply Hn; congruence).
  rewrite Hpos, Hori.
  replace (Ship.mk (Ship.position s) (Ship.orientation s) (Ship.sunk s))
    with s by (destruct s; reflexivity).
  rewrite list_insert_id by exact Hs.
  destruct w as [h [n m l]]; reflexivity.
Qed.

(** X8. A sequence that brings the ship back to where it was, facing as
    it did, changes nothing: for an afloat ship, when the simulation
    returns the position and the orientation the ship has, the move
    returns and the world is the same.  The empty sequence is one. *)
Theorem move_back_to_pose (w : World) (start_pos : Position.t)
    (sequence : list MoveCommand.t) (r : ref) (s final : Ship.t) :
  wf w ->
  _ships (board w) !! start_pos = Some r ->
  heap w !! r = Some s ->
  Ship.sunk s = false ->
  fst (_simulate_move r sequence w) = Return final ->
  Ship.position final = Ship.position s ->
  Ship.orientation final = Ship.orientation s ->
  apply_move_sequence start_pos sequence w = (Return tt, w)
  /\ apply_move_sequence start_pos [] w = (Return tt, w).
Proof.
  intros Hwf Hr Hs Hsunk Hsim Hpos Hori.
  apply (simulate_move_returns w r s) in Hsim; [| exact Hs].
  split.
  - exact (move_pose_fixed w start_pos sequence r s final
             Hwf Hr Hs Hsunk Hsim Hpos Hori).
  - apply (move_pose_fixed w start_pos [] r s
             (Ship.new (Ship.position s) (Ship.orientation s)));
      try assumption; reflexivity.
Qed.

(** The simulation looks at the board only for its size. *)
Lemma simulate_loop_size_only (b1 b2 : Board) (i : Z) (cur : Ship.t)
    (sequence : list MoveCommand.t) :
  size b1 = size b2 ->
  simulate_loop b1 i cur sequence = simulate_loop b2 i cur sequence.
Proof.
  intros Hsize. revert i cur; induction sequence as [|c seq IH];
    intros i cur; simpl; [reflexivity |].
  destruct c; try apply IH.
  unfold is_within_bounds. rewrite Hsize.
  destruct (negb _); [reflexivity | apply IH].
Qed.

(** The step number only shows in the error. *)
Lemma simulate_loop_index (self : Board) (i j : Z) (cur final : Ship.t)
    (sequence : list MoveCommand.t) :
  simulate_loop self i cur sequence = inr final ->
  simulate_loop self j cur sequence = inr final.
Proof.
  revert i j cur; induction sequence as [|c seq IH]; intros i j cur H;
    simpl in *; [exact H |].
  destruct c; try (eapply IH; exact H).
  destruct (negb _); [discriminate | eapply IH; exact H].
Qed.

(** X9. Moves compose: when a move of an afloat ship returns, and a
    second move from the cell it reached returns too, the single move
    with the two sequences one after the other returns as well, and
    leaves the same world as the two moves did. *)
Theorem move_sequences_compose (w w1 w2 : World) (start_pos : Position.t)
    (s1 s2 : list MoveCommand.t) (r : ref) (s mid : Ship.t) :
  wf w ->
  _ships (board w) !! start_pos = Some r ->
  heap w !! r = Some s ->
  Ship.sunk s = false ->
  apply_move_sequence start_pos s1 w = (Return tt, w1) ->
  heap w1 !! r = Some mid ->
  apply_move_sequence (Ship.position mid) s2 w1 = (Return tt, w2) ->
  apply_move_sequence start_pos (s1 ++ s2) w = (Return tt, w2).
Proof.
  intros Hwf Hr Hs Hsunk H1 Hmid H2.
  pose proof Hwf as (Hk & _ & _).
  destruct (keys_agree_lookup _ _ _ Hk Hr) as (s' & Hs' & Hstart).
  assert (s' = s) by congruence; subst s'.
  destruct (move_returns_committed w w1 start_pos s1 r s Hwf Hr Hs Hsunk H1)
    as (f1 & Hsim1 & Hfree1 & Hw1).
  assert (Hwf1 : wf w1).
  { subst w1. apply committed_wf; try assumption.
    apply simulate_loop_final in Hsim1 as [Hfin _]. exact Hfin. }
  assert (Hmid' : mid = Ship.mk (Ship.position f1) (Ship.orientation f1) false).
  { subst w1. unfold committed in Hmid. fields.
    rewrite (list_insert_lookup_same _ _ s _ Hs) in Hmid.
    rewrite Hsunk in Hmid. congruence. }
  assert (Hr1 : _ships (board w1) !! Ship.position mid = Some r).
  { subst w1 mid. unfold committed. fields. case_bool_decide as Hd.
    - apply lookup_insert_eq.
    - cbn [Ship.position]. destruct (decide (Ship.position f1 = start_pos))
        as [-> | Hn]; [exact Hr | contradiction]. }
  assert (Hmsunk : Ship.sunk mid = false) by (subst mid; reflexivity).
  destruct (move_returns_committed w1 w2 (Ship.position mid) s2 r mid
              Hwf1 Hr1 Hmid Hmsunk H2) as (f2 & Hsim2 & Hfree2 & Hw2).
  assert (Hsize : size (board w1) = size (board w)).
  { subst w1. reflexivity. }
  rewrite (simulate_loop_size_only _ (board w) _ _ _ Hsize) in Hsim2.
  assert (Hf1 : f1 = Ship.new (Ship.position mid) (Ship.orientation mid)).
  { apply simulate_loop_final in Hsim1 as [_ Hs1]. subst mid.
    destruct f1 as [p o b]. simpl in Hs1. subst b. reflexivity. }
  assert (Hsim : simulate_loop (board w) 0
                   (Ship.new (Ship.position s) (Ship.orientation s))
                   (s1 ++ s2) = inr f2).
  { rewrite simulate_loop_concat, Hsim1, Hf1.
    eapply simulate_loop_index. exact Hsim2. }
  assert (Hp1 : Ship.position mid = Ship.position f1) by (subst mid; done).
  assert (Hunique : forall p, _ships (board w) !! p = Some r -> p = start_pos).
  { intros p Hp. destruct (keys_agree_lookup _ _ _ Hk Hp) as (t & Ht & <-).
    congruence. }
  assert (Hsunk2 : Ship.sunk f2 = false).
  { apply simulate_loop_final in Hsim2 as [_ Hs2]. exact Hs2. }
  destruct (move_outcome w start_pos (s1 ++ s2) r s f2 Hwf Hr Hs Hsunk Hsim)
    as [(Hne & c & cs & Hc & Hcr & _ & _) | (Hfree & Heq)].
  - exfalso.
    destruct (decide (Ship.position f2 = Ship.position f1)) as [He | Hn].
    + apply Hfree1. rewrite <- He. split; [exact Hne | eauto].
    + apply Hfree2. rewrite Hp1. split; [exact Hn |].
      exists c. split; [| exact Hcr].
      subst w1. unfold committed. fields. case_bool_decide.
      * rewrite lookup_insert_ne by done.
        rewrite lookup_delete_ne by done. exact Hc.
      * exact Hc.
  - rewrite Heq. f_equal. subst w2 w1.
    assert (Hfree1' : Ship.position f1 <> start_pos ->
                      _ships (board w) !! Ship.position f1 = None).
    { intros Hn. destruct (_ships (board w) !! Ship.position f1) as [c|] eqn:Hc;
        [| reflexivity].
      destruct (decide (c = r)) as [-> | Hcr].
      - exfalso. apply Hn. apply Hunique. exact Hc.
      - exfalso. apply Hfree1. eauto. }
    unfold committed. fields. rewrite Hp1, Hmsunk, Hsunk.
    rewrite list_insert_insert_eq. f_equal. f_equal.
    apply map_eq. intros p.
    repeat case_bool_decide;
      repeat (rewrite lookup_insert || rewrite lookup_delete);
      repeat case_decide; simplify_eq; try done; try congruence.
    all: try (symmetry; apply Hfree1'; congruence).
    all: try (rewrite Hfree1' by congruence; reflexivity).
Qed.

(** ** Shots, further *)

Lemma list_alter_at {A} (f : A -> A) (l : list A) (i : nat) (x : A) :
  l !! i = Some x -> alter f i l = <[i := f x]> l.
Proof.
  intros Hx. apply list_eq. intros j.
  rewrite list_lookup_alter. destruct (decide (i = j)) as [<- | Hne].
  - rewrite Hx. simpl. symmetry. eapply list_insert_lookup_same. exact Hx.
  - symmetry. apply list_lookup_insert_ne. exact Hne.
Qed.

(** The ship a shot at [target_pos] reaches, if any. *)
Lemma apply_shoot_result (w : World) (target_pos : Position.t) :
  keys_agree w ->
  apply_shoot target_pos w
  = (Return tt,
     mkWorld
       (match (if is_within_bounds (board w) target_pos
               then _ships (board w) !! target_pos else None) with
        | Some r => alter Ship.sink r (heap w)
        | None => heap w
        end)
       (board w)).
Proof.
  intros Hk.
  destruct (is_within_bounds (board w) target_pos) eqn:Hin;
    [| exec; follow; destruct w; reflexivity].
  destruct (_ships (board w) !! target_pos) as [r|] eqn:Hr;
    [| exec; follow; destruct w; reflexivity].
  destruct (keys_agree_lookup _ _ _ Hk Hr) as (s & Hs & _).
  rewrite (list_alter_at _ _ _ _ Hs).
  destruct (Ship.sunk s) eqn:Hsunk.
  - exec. follow. f_equal.
    replace (Ship.sink s) with s
      by (destruct s; unfold Ship.sink; simpl in *; congruence).
    rewrite list_insert_id by exact Hs. destruct w; reflexivity.
  - exec. follow. reflexivity.
Qed.

Lemma keys_agree_sink (w : World) (r : ref) :
  keys_agree w -> keys_agree (mkWorld (alter Ship.sink r (heap w)) (board w)).
Proof.
  intros Hk p r' Hp. specialize (Hk p r' Hp). fields.
  rewrite list_lookup_alter. destruct (decide (r = r')) as [<- | Hne].
  - destruct (heap w !! r) as [s|]; [| discriminate]. exact Hk.
  - exact Hk.
Qed.

(** X10. Shots commute: on a well-formed world, two shots leave the same
    world whichever is fired first, and both return. *)
Theorem shots_commute (w : World) (a b : Position.t) :
  wf w ->
  fst (apply_shoot a w) = Return tt
  /\ fst (apply_shoot b w) = Return tt
  /\ exists w',
      apply_shoot b (snd (apply_shoot a w)) = (Return tt, w')
      /\ apply_shoot a (snd (apply_shoot b w)) = (Return tt, w').
Proof.
  intros (Hk & _ & _).
  assert (Hka : forall o : option nat,
            keys_agree
              (mkWorld (match o with
                        | Some r => alter Ship.sink r (heap w)
                        | None => heap w
                        end) (board w))).
  { intros [r|]; [apply keys_agree_sink, Hk | destruct w; exact Hk]. }
  rewrite (apply_shoot_result w a Hk), (apply_shoot_result w b Hk).
  cbn [snd]. split; [reflexivity |]. split; [reflexivity |].
  rewrite (apply_shoot_result _ b (Hka _)), (apply_shoot_result _ a (Hka _)).
  fields. eexists. split; [reflexivity |]. f_equal. f_equal.
  destruct (if is_within_bounds (board w) a
            then _ships (board w) !! a else None) as [ra|];
    destruct (if is_within_bounds (board w) b
              then _ships (board w) !! b else None) as [rb|];
    try reflexivity.
  destruct (decide (ra = rb)) as [-> | Hne]; [reflexivity |].
  apply list_alter_alter_ne. exact Hne.
Qed.

(** X11. A ship that was shot no longer moves: after a shot at a cell of
    the board that holds a ship, that ship is sunk, and any move from that
    cell returns without changing anything. *)
Theorem shot_ship_stays (w : World) (target_pos : Position.t) (r : ref)
    (sequence : list MoveCommand.t) :
  wf w ->
  is_within_bounds (board w) target_pos = true ->
  _ships (board w) !! target_pos = Some r ->
  let w1 := snd (apply_shoot target_pos w) in
  (exists s, heap w1 !! r = Some s /\ Ship.sunk s = true)
  /\ apply_move_sequence target_pos sequence w1 = (Return tt, w1).
Proof.
  intros (Hk & _ & _) Hin Hr w1. subst w1.
  rewrite (apply_shoot_result w target_pos Hk). cbn [snd]. rewrite Hin, Hr.
  destruct (keys_agree_lookup _ _ _ Hk Hr) as (s & Hs & _).
  assert (Hl : alter Ship.sink r (heap w) !! r = Some (Ship.sink s)).
  { rewrite list_lookup_alter_eq, Hs. reflexivity. }
  split; [exists (Ship.sink s); split; [exact Hl | reflexivity] |].
  exec. follow. reflexivity.
Qed.

(** No call touches a sunk ship. *)
Lemma step_sunk_frozen (c : Call) (w : World) (r : ref) (s : Ship.t) :
  wf w ->
  heap w !! r = Some s ->
  Ship.sunk s = true ->
  heap (step c w) !! r = Some s.
Proof.
  intros Hwf Hs Hsunk. pose proof Hwf as (Hk & _ & _).
  destruct c as [s0 | ship | start_pos sequence | target_pos];
    unfold step, call.
  - exec. apply lookup_app_l_Some. exact Hs.
  - assert (Hheap : forall o w', add_ship ship w = (o, w') -> heap w' = heap w).
    { intros o w' H. exec. repeat (case_match; simplify_eq/=); reflexivity. }
    destruct (add_ship ship w) as [o w'] eqn:Hadd.
    cbn [snd]. rewrite (Hheap o w' eq_refl). exact Hs.
  - destruct (_ships (board w) !! start_pos) as [r'|] eqn:Hr;
      [| exec; follow; done].
    destruct (keys_agree_lookup _ _ _ Hk Hr) as (s' & Hs' & Hpos).
    destruct (Ship.sunk s') eqn:Hsunk'; [exec; follow; done |].
    destruct (simulate_loop (board w) 0
                (Ship.new (Ship.position s') (Ship.orientation s')) sequence)
      as [e | final] eqn:Hsim.
    + rewrite (move_simulation_raises w start_pos sequence r' s' e)
        by assumption.
      exact Hs.
    + destruct (move_outcome w start_pos sequence r' s' final
                  Hwf Hr Hs' Hsunk' Hsim)
        as [(_ & c & cs & _ & _ & _ & ->) | (_ & ->)]; [exact Hs |].
      cbn [snd]. unfold committed. fields.
      rewrite list_lookup_insert_ne; [exact Hs |].
      intros ->. congruence.
  - rewrite (apply_shoot_result w target_pos Hk). cbn [snd heap].
    destruct (if is_within_bounds (board w) target_pos
              then _ships (board w) !! target_pos else None) as [r'|];
      [| exact Hs].
    rewrite list_lookup_alter. destruct (decide (r' = r)) as [-> | Hne];
      [| exact Hs].
    rewrite Hs. simpl. f_equal.
    destruct s; unfold Ship.sink; simpl in *; congruence.
Qed.

(** X12. Sunk is for ever: on a well-formed world, a ship object that is
    sunk is, after any calls of a client, exactly as it was: same
    position, same orientation, still sunk. *)
Theorem sunk_is_forever (cs : list Call) (w : World) (r : ref) (s : Ship.t) :
  wf w ->
  heap w !! r = Some s ->
  Ship.sunk s = true ->
  heap (run cs w) !! r = Some s.
Proof.
  revert w; induction cs as [|c cs IH]; intros w Hwf Hs Hsunk; simpl.
  - exact Hs.
  - apply IH; [apply step_wf, Hwf | | exact Hsunk].
    apply step_sunk_frozen; assumption.
Qed.

(** A call keeps the size of the board and never removes a ship
    object. *)
Lemma step_grows (c : Call) (w : World) :
  size (board (step c w)) = size (board w)
  /\ (length (heap w) <= length (heap (step c w)))%nat.
Proof.
  destruct c as [s | ship | start_pos sequence | target_pos];
    unfold step, call; exec.
  - rewrite length_app. simpl. split; [reflexivity | lia].
  - repeat (case_match; simplify_eq/=); split; (reflexivity || lia).
  - repeat (case_match; simplify_eq/=);
      rewrite ?length_insert; split; (reflexivity || lia).
  - repeat (case_match; simplify_eq/=);
      rewrite ?length_insert; split; (reflexivity || lia).
Qed.

(** X13. Nothing is ever taken away: after any calls of a client, on any
    world, the board has the size it had, the placement list begins with
    the list it was, and every ship object that existed still exists. *)
Theorem nothing_is_removed (cs : list Call) (w : World) :
  size (board (run cs w)) = size (board w)
  /\ _initial_ships_order (board w)
       `prefix_of` _initial_ships_order (board (run cs w))
  /\ forall r, is_Some (heap w !! r) -> is_Some (heap (run cs w) !! r).
Proof.
  split; [| split].
  - revert w; induction cs as [|c cs IH]; intros w; simpl; [reflexivity |].
    rewrite IH. apply step_grows.
  - rewrite run_order. apply prefix_app_r. reflexivity.
  - assert (Hlen : (length (heap w) <= length (heap (run cs w)))%nat).
    { revert w; induction cs as [|c cs IH]; intros w; simpl; [lia |].
      etransitivity; [apply (step_grows c w) | apply IH]. }
    intros r Hr. apply lookup_lt_is_Some. apply lookup_lt_is_Some in Hr. lia.
Qed.

(** X14. The dictionary and the placement list hold the same ships, on
    the board: after any calls of a client on a new board, every placed
    ship exists, stands on a cell of the board and is the ship
    [get_ship_at] finds at its position; and every ship of the dictionary
    is a placed ship. *)
Theorem placed_ships_on_board (objects : list Ship.t) (n : Z)
    (cs : list Call) :
  let w := run cs (start_world objects n) in
  (forall r, r ∈ _initial_ships_order (board w) ->
     exists s, heap w !! r = Some s
       /\ is_within_bounds (board w) (Ship.position s) = true
       /\ get_ship_at (Ship.position s) w = (Return (Some r), w))
  /\ (forall p r, _ships (board w) !! p = Some r ->
        r ∈ _initial_ships_order (board w)).
Proof.
  intros w.
  assert (Hwf : wf w) by apply run_wf, start_world_wf.
  destruct Hwf as (Hk & Hb & Hnd & Himg).
  split.
  - intros r Hr.
    assert (Hin : r ∈ map_img (SA := gset nat) (_ships (board w))).
    { rewrite <- Himg. apply elem_of_list_to_set. exact Hr. }
    apply elem_of_map_img in Hin as (p & Hp).
    destruct (keys_agree_lookup _ _ _ Hk Hp) as (s & Hs & <-).
    exists s. split; [exact Hs |]. split; [exact (Hb _ _ Hp) |].
    exec. rewrite Hp. reflexivity.
  - intros p r Hp.
    apply (elem_of_list_to_set (C := gset nat)). rewrite Himg.
    apply elem_of_map_img. eauto.
Qed.

(** X15. A ship is placed once: after an [add_ship] that returned, the
    ship is found at its position, and adding the same ship again raises
    the "already occupied" error, naming the ship itself as the occupant,
    and changes nothing. *)
Theorem add_ship_once (w w1 : World) (ship : ref) (s : Ship.t) :
  heap w !! ship = Some s ->
  add_ship ship w = (Return tt, w1) ->
  get_ship_at (Ship.position s) w1 = (Return (Some ship), w1)
  /\ add_ship ship w1
     = (Raise (AlreadyOccupied (Ship.position s) s), w1).
Proof.
  intros Hs Hadd.
  assert (Hw1 : is_within_bounds (board w) (Ship.position s) = true
                /\ w1 = mkWorld (heap w)
                          (mkBoard (size (board w))
                             (<[Ship.position s := ship]> (_ships (board w)))
                             (_initial_ships_order (board w) ++ [ship]))).
  { exec. rewrite Hs in Hadd. simpl in Hadd.
    repeat (case_match; simplify_eq/=).
    split; [| reflexivity].
    match goal with H : negb _ = false |- _ =>
      apply negb_false_iff in H; exact H end. }
  destruct Hw1 as [Hin ->]. split.
  - exec. rewrite lookup_insert_eq. reflexivity.
  - exec. rewrite Hs. simpl.
    unfold is_within_bounds in *. simpl. rewrite Hin. simpl.
    rewrite lookup_insert_eq. simpl. rewrite Hs. reflexivity.
Qed.

(** ** main.py *)

Example demo_main :
  main_simulation 10 demo_ships demo_operations
  = Continue ["(1, 3, N)"; "(9, 2, E) SUNK"]%string.
Proof. vm_compute. reflexivity. Qed.

(** On a well-formed world a move or a shot returns, or raises and
    leaves the world as it was. *)
Lemma operation_ends (w : World) (op : ParsedOperation) (c : Call) :
  wf w ->
  operation_call op = Some c ->
  (exists w', call c w = (Return tt, w'))
  \/ (exists e, call c w = (Raise e, w)).
Proof.
  intros Hwf Hop. pose proof Hwf as (Hk & _ & _).
  destruct op as [[] pos | [] pos sequence]; simplify_eq/=.
  - left. rewrite (apply_shoot_result w pos Hk). eauto.
  - destruct (_ships (board w) !! pos) as [r|] eqn:Hr;
      [| right; exec; follow; eauto].
    destruct (keys_agree_lookup _ _ _ Hk Hr) as (s & Hs & Hpos).
    destruct (Ship.sunk s) eqn:Hsunk; [left; exec; follow; eauto |].
    destruct (simulate_loop (board w) 0
                (Ship.new (Ship.position s) (Ship.orientation s)) sequence)
      as [e | final] eqn:Hsim.
    + right. exists e. apply (move_simulation_raises w pos sequence r s e);
        assumption.
    + destruct (move_outcome w pos sequence r s final Hwf Hr Hs Hsunk Hsim)
        as [(_ & c & cs & _ & _ & _ & Heq) | (_ & Heq)]; eauto.
Qed.

Lemma execute_operation_skips_errors_aux (w : World) (op : ParsedOperation) :
  wf w ->
  match operation_call op with
  | Some c =>
      _execute_operation op w = (Finished, step c w)
      /\ wf (step c w)
      /\ _initial_ships_order (board (step c w))
         = _initial_ships_order (board w)
      /\ size (board (step c w)) = size (board w)
  | None => exists msg, _execute_operation op w = (AssertionFailed msg, w)
  end.
Proof.
  intros Hwf.
  destruct (operation_call op) as [c|] eqn:Hop.
  - split; [| split; [apply step_wf, Hwf | split]].
    + destruct (operation_ends w op c Hwf Hop) as [(w' & Hc) | (e & Hc)];
        destruct op as [[] pos | [] pos sequence]; simplify_eq/=;
        unfold _execute_operation, logged, step; simpl; rewrite Hc;
        reflexivity.
    + rewrite step_order.
      destruct op as [[] pos | [] pos sequence]; simplify_eq/=;
        apply app_nil_r.
    + apply step_grows.
  - destruct op as [[] pos | [] pos sequence]; simplify_eq/=; eauto.
Qed.

(** X16. An operation that fails is skipped: on a well-formed world,
    [_execute_operation] on a move with its sequence or on a shot always
    finishes, no [BoardError] leaves it, the world it leaves is
    well-formed, and when the call of the board raised, that world is the
    one before; on a tuple of the wrong length its [assert] fails and the
    world is the one before. *)
Theorem execute_operation_skips_errors (w : World) (op : ParsedOperation) :
  wf w ->
  match operation_call op with
  | Some c =>
      _execute_operation op w = (Finished, step c w)
      /\ wf (step c w)
      /\ (forall e, fst (call c w) = Raise e -> step c w = w)
  | None => exists msg, _execute_operation op w = (AssertionFailed msg, w)
  end.
Proof.
  intros Hwf.
  destruct (operation_call op) as [c|] eqn:Hop.
  - split; [| split; [apply step_wf, Hwf |]].
    + destruct (operation_ends w op c Hwf Hop) as [(w' & Hc) | (e & Hc)];
        destruct op as [[] pos | [] pos sequence]; simplify_eq/=;
        unfold _execute_operation, logged, step; simpl; rewrite Hc;
        reflexivity.
    + intros e He.
      destruct (operation_ends w op c Hwf Hop) as [(w' & Hc) | (e' & Hc)];
        unfold step; rewrite Hc in *; [discriminate | reflexivity].
  - destruct op as [[] pos | [] pos sequence]; simplify_eq/=; eauto.
Qed.

(** Placing the ships [todo] that follow the ships [done], already placed:
    it goes through exactly when each of [todo] stands on a cell of the
    board, no two of them on the same cell and none on a cell of [done];
    otherwise the program exits with 1. *)
Lemma place_from (n : Z) (todo done : list Ship.t) (m : gmap Position.t nat) :
  let w := mkWorld (done ++ todo) (mkBoard n m (seq 0 (length done))) in
  let fits :=
    Forall (fun s => is_within_bounds (empty_board n) (Ship.position s) = true)
      todo
    /\ NoDup (Ship.position <$> todo)
    /\ (forall p, p ∈ Ship.position <$> todo -> p ∉ Ship.position <$> done) in
  wf w ->
  (forall p, is_Some (m !! p) <-> p ∈ Ship.position <$> done) ->
  (fits
   /\ exists m',
       wf (mkWorld (done ++ todo)
             (mkBoard n m' (seq 0 (length (done ++ todo)))))
       /\ place_initial_ships (seq (length done) (length todo)) w
          = Continue (mkWorld (done ++ todo)
                        (mkBoard n m' (seq 0 (length (done ++ todo))))))
  \/ (~ fits
      /\ place_initial_ships (seq (length done) (length todo)) w = SysExit 1).
Proof.
  revert done m. induction todo as [|s rest IH]; intros done m w fits Hwf Hdom.
  - left. subst fits. split.
    + split; [constructor |]. split; [constructor |].
      intros p Hp. inversion Hp.
    + exists m. subst w. rewrite app_nil_r in *. split; [exact Hwf | reflexivity].
  - assert (Hs : heap w !! length done = Some s).
    { subst w. simpl. apply list_lookup_middle. reflexivity. }
    cbn [length seq place_initial_ships].
    destruct (is_within_bounds (board w) (Ship.position s)) eqn:Hin.
    + destruct (_ships (board w) !! Ship.position s) as [occ|] eqn:Hocc.
      * right. split.
        -- intros (_ & _ & Hdis). apply (Hdis (Ship.position s)).
           ++ simpl. left.
           ++ apply Hdom. subst w. simpl in Hocc. eauto.
        -- destruct Hwf as (Hk & _).
           destruct (keys_agree_lookup _ _ _ Hk Hocc) as (o & Ho & _).
           exec. follow. reflexivity.
      * pose proof (placement_wf w (length done) s Hwf Hs Hin Hocc) as Hwf'.
        assert (Hadd : add_ship (length done) w
                       = (Return tt,
                          mkWorld ((done ++ [s]) ++ rest)
                            (mkBoard n (<[Ship.position s := length done]> m)
                               (seq 0 (length (done ++ [s])))))).
        { exec. follow. subst w. simpl. rewrite <- app_assoc. simpl.
          rewrite length_app. simpl. rewrite Nat.add_1_r, seq_S.
          reflexivity. }
        rewrite Hadd.
        assert (Hwf'' : wf (mkWorld ((done ++ [s]) ++ rest)
                              (mkBoard n (<[Ship.position s := length done]> m)
                                 (seq 0 (length (done ++ [s])))))).
        { subst w. simpl in Hwf'. rewrite <- app_assoc. simpl.
          rewrite length_app. simpl. rewrite Nat.add_1_r, seq_S.
          exact Hwf'. }
        assert (Hdom' : forall p,
                  is_Some (<[Ship.position s := length done]> m !! p)
                  <-> p ∈ Ship.position <$> (done ++ [s])).
        { intros p. rewrite fmap_app, elem_of_app. simpl.
          rewrite list_elem_of_singleton.
          destruct (decide (Ship.position s = p)) as [<- | Hne].
          - rewrite lookup_insert_eq. split; eauto.
          - rewrite lookup_insert_ne by done. rewrite Hdom.
            split; [eauto | intros [? | ?]; congruence]. }
        assert (Hfree : Ship.position s ∉ Ship.position <$> done).
        { intros Hel. apply Hdom in Hel. subst w. simpl in Hocc.
          rewrite Hocc in Hel. destruct Hel; discriminate. }
        assert (Hlen : length (done ++ [s]) = S (length done)).
        { rewrite length_app. simpl. lia. }
        specialize (IH (done ++ [s]) _ Hwf'' Hdom'). rewrite Hlen in IH.
        assert (Happ : (done ++ [s]) ++ rest = done ++ s :: rest).
        { rewrite <- app_assoc. reflexivity. }
        destruct IH as [((Hall & Hnd & Hdis) & m' & Hw' & Hplace)
                       | (Hno & Hplace)].
        -- left. split.
           ++ split; [| split].
              ** constructor; [| exact Hall].
                 subst w. unfold is_within_bounds in *. exact Hin.
              ** simpl. constructor; [| exact Hnd].
                 intros Hel. apply (Hdis _ Hel).
                 rewrite fmap_app, elem_of_app. right. simpl. left.
              ** intros p Hp Hd. simpl in Hp.
                 apply elem_of_cons in Hp as [-> | Hp]; [contradiction |].
                 apply (Hdis _ Hp). rewrite fmap_app, elem_of_app. left.
                 exact Hd.
           ++ exists m'. rewrite Happ in *. rewrite Hlen.
              split; [exact Hw' | exact Hplace].
        -- right. split; [| rewrite Happ in *; rewrite Hlen; exact Hplace].
           intros (Hall & Hnd & Hdis). apply Hno.
           apply Forall_cons in Hall as [_ Hall].
           simpl in Hnd. apply NoDup_cons in Hnd as [Hnot Hnd].
           split; [exact Hall |]. split; [exact Hnd |].
           intros p Hp Hd. rewrite fmap_app, elem_of_app in Hd.
           destruct Hd as [Hd | Hd].
           ++ apply (Hdis p); [simpl; right; exact Hp | exact Hd].
           ++ simpl in Hd. apply list_elem_of_singleton in Hd. subst p.
              contradiction.
    + right. split.
      * intros (Hall & _). apply Forall_cons in Hall as [Hb _].
        subst w. unfold is_within_bounds in *. simpl in *. congruence.
      * exec. follow. reflexivity.
Qed.

(** Executing the operations of [main]: it goes through exactly when each
    operation has the length its type asks for, and then leaves a
    well-formed world with the same size and the same placement list. *)
Lemma execute_operations_result (ops : list ParsedOperation) (w : World) :
  wf w ->
  (Forall (fun op => is_Some (operation_call op)) ops
   /\ exists w',
       execute_operations ops w = Continue w'
       /\ wf w'
       /\ size (board w') = size (board w)
       /\ _initial_ships_order (board w') = _initial_ships_order (board w))
  \/ (~ Forall (fun op => is_Some (operation_call op)) ops
      /\ execute_operations ops w = SysExit 1).
Proof.
  revert w; induction ops as [|op ops IH]; intros w Hwf.
  - left. split; [constructor |]. exists w.
    split; [reflexivity |]. split; [exact Hwf |]. split; reflexivity.
  - pose proof (execute_operation_skips_errors_aux w op Hwf) as Hop.
    destruct (operation_call op) as [c|] eqn:Hc.
    + destruct Hop as (Hex & Hwf' & Hord & Hsize).
      cbn [execute_operations]. rewrite Hex.
      destruct (IH (step c w) Hwf')
        as [(Hall & w' & Hrun & Hw' & Hs' & Ho') | (Hno & Hrun)].
      * left. split; [constructor; [eauto | exact Hall] |].
        exists w'. split; [exact Hrun |]. split; [exact Hw' |].
        split; congruence.
      * right. split; [| exact Hrun].
        intros Hall. apply Forall_cons in Hall as [_ Hall]. contradiction.
    + destruct Hop as (msg & Hex). right. split.
      * intros Hall. apply Forall_cons in Hall as [[x Hx] _]. congruence.
      * cbn [execute_operations]. rewrite Hex. reflexivity.
Qed.

(** On a well-formed world a placed ship exists and stands on the
    board. *)
Lemma wf_placed_ship (w : World) (r : ref) :
  wf w ->
  r ∈ _initial_ships_order (board w) ->
  exists s, heap w !! r = Some s
    /\ is_within_bounds (board w) (Ship.position s) = true.
Proof.
  intros (Hk & Hb & Hnd & Himg) Hr.
  assert (Hin : r ∈ map_img (SA := gset nat) (_ships (board w))).
  { rewrite <- Himg. apply elem_of_list_to_set. exact Hr. }
  apply elem_of_map_img in Hin as (p & Hp).
  destruct (keys_agree_lookup _ _ _ Hk Hp) as (s & Hs & <-).
  exists s. split; [exact Hs | exact (Hb _ _ Hp)].
Qed.

(** Reading every object of a store, in order, gives the store. *)
Lemma all_objects (h fs : list Ship.t) :
  Forall2 (fun r s => h !! r = Some s) (seq 0 (length h)) fs -> fs = h.
Proof.
  intros Hf. apply list_eq. intros i.
  pose proof (Forall2_length _ _ _ Hf) as Hlen. rewrite length_seq in Hlen.
  destruct (decide (i < length h)%nat) as [Hlt | Hge].
  - destruct (Forall2_lookup_l _ _ _ i i Hf) as (y & Hy & Hr).
    { apply lookup_seq_lt. exact Hlt. }
    rewrite Hy, Hr. reflexivity.
  - rewrite !lookup_ge_None_2 by lia. reflexivity.
Qed.

(** The simulation of [main], case by case. *)
Lemma main_cases (n : Z) (ships : list Ship.t) (ops : list ParsedOperation) :
  let fits :=
    Forall (fun s => is_within_bounds (empty_board n) (Ship.position s) = true)
      ships
    /\ NoDup (Ship.position <$> ships) in
  let shaped := Forall (fun op => is_Some (operation_call op)) ops in
  (~ (0 < n /\ fits /\ shaped) /\ main_simulation n ships ops = SysExit 1)
  \/ (0 < n /\ fits /\ shaped
      /\ exists w fs,
          wf w
          /\ size (board w) = n
          /\ _initial_ships_order (board w) = seq 0 (length ships)
          /\ Forall2 (fun r s => heap w !! r = Some s)
               (seq 0 (length ships)) fs
          /\ (ops = [] -> heap w = ships)
          /\ main_simulation n ships ops = Continue (Ship.str <$> fs)).
Proof.
  intros fits shaped. unfold main_simulation, Board_init.
  destruct (n <=? 0) eqn:Hn.
  { left. split; [intros (Hpos & _); lia | reflexivity]. }
  assert (Hpos : 0 < n) by lia.
  pose proof (place_from n ships [] ∅) as Hplace. cbn zeta in Hplace.
  rewrite !app_nil_l in Hplace. cbn [length seq] in Hplace.
  destruct Hplace as [((Hall & Hnd & _) & m' & Hwf1 & Hrun1) | (Hno & Hrun1)].
  { apply (start_world_wf ships n). }
  { intros p. rewrite lookup_empty. split; [intros [x Hx]; discriminate |].
    intros Hel. inversion Hel. }
  2: { left. split; [| rewrite Hrun1; reflexivity].
       intros (_ & (Hall & Hnd) & _). apply Hno.
       split; [exact Hall |]. split; [exact Hnd |].
       intros p _ Hel. inversion Hel. }
  rewrite Hrun1.
  destruct (execute_operations_result ops _ Hwf1)
    as [(Hshaped & w & Hrun2 & Hwf2 & Hsize & Hord) | (Hno & Hrun2)].
  2: { left. split; [| rewrite Hrun2; reflexivity].
       intros (_ & _ & Hs). contradiction. }
  rewrite Hrun2. right.
  split; [exact Hpos |]. split; [split; assumption |].
  split; [exact Hshaped |].
  destruct (str_each_returns w _ (order_allocated w Hwf2)) as (fs & Hf & Heq).
  simpl in Hord. rewrite Hord in Hf, Heq.
  exists w, fs. split; [exact Hwf2 |]. split; [exact Hsize |].
  split; [exact Hord |]. split; [exact Hf |]. split.
  - intros ->. simpl in Hrun2. inversion Hrun2. reflexivity.
  - unfold get_final_ship_states. exec. rewrite Hord, Heq. reflexivity.
Qed.

(** X17. When [main] gives up: the simulation ends with [sys.exit(1)]
    exactly when the size is not positive, or an initial ship is off the
    board, or two initial ships have the same position, or an operation
    has the wrong length for its type; it ends with no other code. *)
Theorem main_exit_conditions (n : Z) (ships : list Ship.t)
    (ops : list ParsedOperation) :
  (main_simulation n ships ops = SysExit 1
   <-> ~ (0 < n
          /\ Forall (fun s =>
                       is_within_bounds (empty_board n) (Ship.position s)
                       = true) ships
          /\ NoDup (Ship.position <$> ships)
          /\ Forall (fun op => is_Some (operation_call op)) ops))
  /\ (forall code, main_simulation n ships ops = SysExit code -> code = 1)
  /\ (forall r, main_simulation n ships ops <> NoObject r).
Proof.
  destruct (main_cases n ships ops)
    as [(Hno & Heq) | (Hpos & (Hall & Hnd) & Hshaped & w & fs & _ & _ & _ & _
                       & _ & Heq)];
    rewrite Heq.
  - split; [| split].
    + split; [| reflexivity].
      intros _ (H1 & H2 & H3 & H4). apply Hno. tauto.
    + intros code H. congruence.
    + intros r H. discriminate.
  - split; [| split].
    + split; [discriminate | intros Hneg; exfalso; apply Hneg; tauto].
    + intros code H. discriminate.
    + intros r H. discriminate.
Qed.

(** X18. What [main] writes: when the simulation gets to the end, it
    hands over one line for each initial ship; each line is the rendering
    of a ship that stands on a cell of the board; and without operations
    the lines are the renderings of the initial ships, in their order. *)
Theorem main_output (n : Z) (ships : list Ship.t)
    (ops : list ParsedOperation) (written : list string) :
  main_simulation n ships ops = Continue written ->
  length written = length ships
  /\ (forall i line, written !! i = Some line ->
        exists s, line = Ship.str s
          /\ is_within_bounds (empty_board n) (Ship.position s) = true)
  /\ (ops = [] -> written = Ship.str <$> ships).
Proof.
  intros Hmain.
  destruct (main_cases n ships ops)
    as [(_ & Heq) | (_ & _ & _ & w & fs & Hwf & Hsize & Hord & Hf & Hnil
                     & Heq)];
    rewrite Heq in Hmain; [discriminate |].
  inversion Hmain; subst written; clear Hmain.
  pose proof (Forall2_length _ _ _ Hf) as Hlen. rewrite length_seq in Hlen.
  split; [rewrite length_fmap; lia |]. split.
  - intros i line Hline. rewrite list_lookup_fmap in Hline.
    destruct (fs !! i) as [s|] eqn:Hs; [| discriminate].
    simpl in Hline. inversion Hline; subst line.
    destruct (Forall2_lookup_r _ _ _ i s Hf Hs) as (r & Hr & Hheap).
    assert (Hin : r ∈ _initial_ships_order (board w)).
    { rewrite Hord. apply list_elem_of_lookup. eauto. }
    destruct (wf_placed_ship w r Hwf Hin) as (s' & Hs' & Hb).
    exists s. split; [reflexivity |].
    assert (s' = s) by congruence; subst s'.
    unfold is_within_bounds in *. simpl. rewrite <- Hsize. exact Hb.
  - intros Hops. specialize (Hnil Hops).
    assert (Hlenw : length (heap w) = length ships) by (rewrite Hnil; done).
    rewrite <- Hlenw in Hf. apply all_objects in Hf.
    rewrite Hf, Hnil. reflexivity.
Qed.

(** ** parser.py: the move sequence *)

Example parse_mixed_case :
  parse_move_sequence "mRmLMm"
  = inr [MoveCommand.M; MoveCommand.R; MoveCommand.M; MoveCommand.L;
         MoveCommand.M; MoveCommand.M].
Proof. reflexivity. Qed.

Example parse_bad_character :
  parse_move_sequence "MxL"
  = inl "Invalid character 'X' in move sequence 'MxL'"%string.
Proof. reflexivity. Qed.

(** The loop returns exactly when every character left names a command,
    and then with one command more for each character. *)
Lemma parse_move_loop_returns (orig chars : string)
    (acc cmds : list MoveCommand.t) :
  parse_move_loop orig chars acc = inr cmds
  <-> exists cs,
        Forall2 (fun ch c => MoveCommand_getitem ch = Some c)
          (list_ascii_of_string chars) cs
        /\ cmds = acc ++ cs.
Proof.
  revert acc; induction chars as [|ch rest IH]; intros acc; simpl.
  - split.
    + intros H. inversion H. exists []. split; [constructor |].
      rewrite app_nil_r. reflexivity.
    + intros (cs & Hf & ->). inversion Hf. rewrite app_nil_r. reflexivity.
  - destruct (MoveCommand_getitem ch) as [c|] eqn:Hc.
    + rewrite IH. split.
      * intros (cs & Hf & ->). exists (c :: cs).
        split; [constructor; assumption |].
        rewrite <- app_assoc. reflexivity.
      * intros (cs & Hf & ->). inversion Hf as [| ? c' ? cs' Hc' Hf']; subst.
        assert (c' = c) by congruence; subst c'.
        exists cs'. split; [exact Hf' |]. rewrite <- app_assoc. reflexivity.
    + split; [discriminate |].
      intros (cs & Hf & _). inversion Hf; subst. congruence.
Qed.

Lemma list_ascii_upper (s : string) :
  list_ascii_of_string (upper s) = upper_char <$> list_ascii_of_string s.
Proof. induction s as [|c s IH]; simpl; [reflexivity | f_equal; exact IH]. Qed.

Lemma getitem_upper (ch : ascii) :
  is_Some (MoveCommand_getitem (upper_char ch))
  <-> ch ∈ ["L"; "R"; "M"; "l"; "r"; "m"]%char.
Proof.
  assert (Hdec : forall (P Q : Prop) (HP : Decision P) (HQ : Decision Q),
            @bool_decide P HP = @bool_decide Q HQ -> (P <-> Q)).
  { intros P Q HP HQ H.
    rewrite <- (bool_decide_spec P), <- (bool_decide_spec Q).
    rewrite H. reflexivity. }
  apply (Hdec _ _ _ _).
  destruct ch as [[] [] [] [] [] [] [] []]; vm_compute; reflexivity.
Qed.

Lemma string_length_list (s : string) :
  String.length s = length (list_ascii_of_string s).
Proof. induction s as [|c s IH]; simpl; [reflexivity | f_equal; exact IH]. Qed.

(** X19. What [parse_move_sequence] accepts: on ASCII text it returns,
    rather than raising [ParseError], exactly when every character is one
    of L, R, M, l, r, m; and it returns one command for each character
    (none for the empty string). *)
Theorem parse_move_sequence_accepts (s : string) :
  ascii_text s ->
  ((exists cmds, parse_move_sequence s = inr cmds)
   <-> Forall (fun ch => ch ∈ ["L"; "R"; "M"; "l"; "r"; "m"]%char)
         (list_ascii_of_string s))
  /\ (forall cmds, parse_move_sequence s = inr cmds ->
        length cmds = String.length s).
Proof.
  intros _. unfold parse_move_sequence. split.
  - split.
    + intros (cmds & H). apply parse_move_loop_returns in H as (cs & Hf & _).
      rewrite list_ascii_upper in Hf. apply Forall2_fmap_l in Hf.
      apply Forall_forall. intros ch Hch.
      apply list_elem_of_lookup in Hch as (i & Hi).
      destruct (Forall2_lookup_l _ _ _ i ch Hf Hi) as (c & _ & Hc).
      apply getitem_upper. eauto.
    + intros Hall.
      assert (Hex : exists cs,
                Forall2 (fun ch c => MoveCommand_getitem ch = Some c)
                  (list_ascii_of_string (upper s)) cs).
      { rewrite list_ascii_upper.
        induction Hall as [|ch l Hch Hall IH].
        - exists []. constructor.
        - destruct IH as (cs & Hcs).
          apply getitem_upper in Hch as [c Hc].
          exists (c :: cs). constructor; assumption. }
      destruct Hex as (cs & Hcs). exists cs.
      apply parse_move_loop_returns. exists cs. split; [exact Hcs | reflexivity].
  - intros cmds H. apply parse_move_loop_returns in H as (cs & Hf & ->).
    apply Forall2_length in Hf. rewrite list_ascii_upper, length_fmap in Hf.
    rewrite string_length_list. simpl. lia.
Qed.

Lemma concat_names_cons (c : MoveCommand.t) (cmds : list MoveCommand.t) :
  String.concat "" (MoveCommand_name <$> (c :: cmds))
  = String.append (MoveCommand_name c)
      (String.concat "" (MoveCommand_name <$> cmds)).
Proof.
  destruct cmds as [|d cmds]; [| reflexivity].
  destruct c; reflexivity.
Qed.

(** X20. Writing a sequence and reading it back: the names of a list of
    commands, joined without separator, parse back to that list. *)
Theorem parse_move_sequence_of_names (cmds : list MoveCommand.t) :
  parse_move_sequence (String.concat "" (MoveCommand_name <$> cmds))
  = inr cmds.
Proof.
  unfold parse_move_sequence.
  generalize (String.concat "" (MoveCommand_name <$> cmds)) at 1.
  intros orig.
  change cmds with ([] ++ cmds) at 2.
  generalize (@nil MoveCommand.t) as acc.
  induction cmds as [|c cmds IH]; intros acc.
  - rewrite app_nil_r. reflexivity.
  - rewrite concat_names_cons.
    replace (acc ++ c :: cmds) with ((acc ++ [c]) ++ cmds)
      by (rewrite <- app_assoc; reflexivity).
    rewrite <- IH. destruct c; reflexivity.
Qed.

(** Reading a sequence written out in any mix of cases, with commands
    already read. *)
Lemma parse_move_loop_spell (orig : string)
    (written : list (bool * MoveCommand.t)) (acc : list MoveCommand.t) :
  parse_move_loop orig (upper (spell written)) acc
  = inr (acc ++ (snd <$> written)).
Proof.
  revert acc; induction written as [|[b c] rest IH]; intros acc.
  - rewrite app_nil_r. reflexivity.
  - replace (acc ++ (snd <$> (b, c) :: rest))
      with ((acc ++ [c]) ++ (snd <$> rest))
      by (rewrite <- app_assoc; reflexivity).
    rewrite <- IH. destruct b, c; reflexivity.
Qed.

(** X21. Case does not matter: a sequence of commands written out with
    each letter in lower or in upper case, whichever is chosen for each,
    parses to that sequence of commands. *)
Theorem parse_move_sequence_any_case (written : list (bool * MoveCommand.t)) :
  parse_move_sequence (spell written) = inr (snd <$> written).
Proof.
  unfold parse_move_sequence. apply parse_move_loop_spell.
Qed.

(** ** The rendering of a ship, further *)

(** [str] of an integer tells the integer. *)
Lemma str_int_inj (a b : Z) : str_int a = str_int b -> a = b.
Proof.
  unfold str_int. intros H. apply DecimalZ.to_int_inj.
  destruct (to_int_not_nil a) as [Ha1 Ha2].
  destruct (to_int_not_nil b) as [Hb1 Hb2].
  pose proof (NilZero.isi (Z.to_int a) Ha1 Ha2) as Ia.
  pose proof (NilZero.isi (Z.to_int b) Hb1 Hb2) as Ib.
  rewrite H in Ia. congruence.
Qed.

(** No comma in the digits of an integer. *)
Lemma uint_no_comma (d : Decimal.uint) :
  Forall (fun c => c <> ","%char)
    (list_ascii_of_string (NilEmpty.string_of_uint d)).
Proof.
  induction d; simpl; constructor; (discriminate || assumption).
Qed.

Lemma str_int_no_comma (z : Z) :
  Forall (fun c => c <> ","%char) (list_ascii_of_string (str_int z)).
Proof.
  unfold str_int.
  assert (Hu : forall d,
            Forall (fun c => c <> ","%char)
              (list_ascii_of_string (NilZero.string_of_uint d))).
  { intros d. destruct d; try apply uint_no_comma.
    simpl. constructor; [discriminate | constructor]. }
  destruct (Z.to_int z) as [d | d]; simpl; [apply Hu |].
  constructor; [discriminate | apply Hu].
Qed.

(** Two texts without comma, each followed by a comma, are told apart by
    the first comma. *)
Lemma split_at_comma (a1 a2 r1 r2 : string) :
  Forall (fun c => c <> ","%char) (list_ascii_of_string a1) ->
  Forall (fun c => c <> ","%char) (list_ascii_of_string a2) ->
  String.append a1 (String "," r1) = String.append a2 (String "," r2) ->
  a1 = a2 /\ r1 = r2.
Proof.
  revert a2; induction a1 as [|c a1 IH]; intros a2 H1 H2 Heq.
  - destruct a2 as [|c2 a2].
    + change (String "," r1 = String "," r2) in Heq.
      inversion Heq. split; reflexivity.
    + change (String "," r1 = String c2 (String.append a2 (String "," r2)))
        in Heq.
      inversion Heq as [[Hc Hr]]. subst c2.
      simpl in H2. apply Forall_cons in H2 as [Hne _]. contradiction.
  - destruct a2 as [|c2 a2].
    + change (String c (String.append a1 (String "," r1)) = String "," r2)
        in Heq.
      inversion Heq as [[Hc Hr]]. subst c.
      simpl in H1. apply Forall_cons in H1 as [Hne _]. contradiction.
    + change (String c (String.append a1 (String "," r1))
              = String c2 (String.append a2 (String "," r2))) in Heq.
      inversion Heq as [[Hc Hr]]. subst c2.
      simpl in H1, H2. apply Forall_cons in H1 as [_ H1].
      apply Forall_cons in H2 as [_ H2].
      destruct (IH a2 H1 H2 Hr) as [-> ->]. split; reflexivity.
Qed.

(** The rendering, character by character around the two numbers. *)
Lemma str_layout (s : Ship.t) :
  Ship.str s
  = String "("
      (String.append (str_int (Position.x (Ship.position s)))
         (String ","
            (String " "
               (String.append (str_int (Position.y (Ship.position s)))
                  (String ","
                     (String " "
                        (String.append
                           (Orientation.name (Ship.orientation s))
                           (String ")"
                              (if Ship.sunk s then " SUNK" else ""))))))))).
Proof.
  unfold Ship.str. rewrite pose_str_shape, !string_app_assoc.
  destruct (Ship.sunk s); reflexivity.
Qed.

(** X22. The rendering tells the ship: two ships with the same string
    have the same position, the same orientation and the same [sunk]
    flag. *)
Theorem ship_str_injective (s1 s2 : Ship.t) :
  Ship.str s1 = Ship.str s2 -> s1 = s2.
Proof.
  rewrite !str_layout. intros H. inversion H as [H1]. clear H.
  apply split_at_comma in H1 as [Hx H1]; try apply str_int_no_comma.
  inversion H1 as [H2]. clear H1.
  apply split_at_comma in H2 as [Hy H2]; try apply str_int_no_comma.
  apply str_int_inj in Hx, Hy.
  destruct s1 as [[x1 y1] o1 b1], s2 as [[x2 y2] o2 b2]; simpl in *.
  subst x2 y2.
  destruct o1, o2, b1, b2; try reflexivity; discriminate.
Qed.

(** ** The further theorems at work *)

(** On a board of size 3, the third M from (0,0) facing north leaves the
    board. *)
Lemma simulate_loop_first_breach_witness :
  simulate_loop (empty_board 3) 0 (Ship.new (Position.mk 0 0) Orientation.N)
    [MoveCommand.M; MoveCommand.M; MoveCommand.M]
  = inl (TargetOutOfBounds (Position.mk 0 3) 3 3)
  /\ exists (k : nat) (before : Ship.t),
      [MoveCommand.M; MoveCommand.M; MoveCommand.M] !! k = Some MoveCommand.M
      /\ simulate_loop (empty_board 3) 0
           (Ship.new (Position.mk 0 0) Orientation.N)
           (take k [MoveCommand.M; MoveCommand.M; MoveCommand.M])
         = inr before
      /\ is_within_bounds (empty_board 3)
           (Position.move (Ship.position before) (Ship.orientation before))
         = false
      /\ TargetOutOfBounds (Position.mk 0 3) 3 3
         = TargetOutOfBounds
             (Position.move (Ship.position before) (Ship.orientation before))
             (size (empty_board 3)) (Z.of_nat k + 1).
Proof.
  split; [reflexivity |].
  apply (simulate_loop_first_breach (empty_board 3)
           (Ship.new (Position.mk 0 0) Orientation.N)
           [MoveCommand.M; MoveCommand.M; MoveCommand.M]).
  reflexivity.
Defined.

Lemma simulate_loop_reach_witness :
  simulate_loop (empty_board 10) 0 (Ship.new (Position.mk 0 0) Orientation.N)
    [MoveCommand.M; MoveCommand.R; MoveCommand.M]
  = inr (Ship.new (Position.mk 1 1) Orientation.E)
  /\ (Z.abs (1 - 0) + Z.abs (1 - 0)
      <= Z.of_nat (occurrences MoveCommand.M
                     [MoveCommand.M; MoveCommand.R; MoveCommand.M])
      /\ (is_within_bounds (empty_board 10) (Position.mk 0 0) = true ->
          is_within_bounds (empty_board 10) (Position.mk 1 1) = true)).
Proof.
  split; [reflexivity |].
  apply (simulate_loop_reach (empty_board 10) 0
           (Ship.new (Position.mk 0 0) Orientation.N)
           (Ship.new (Position.mk 1 1) Orientation.E)
           [MoveCommand.M; MoveCommand.R; MoveCommand.M]).
  reflexivity.
Defined.

Lemma move_returns_effect_witness :
  wf crossing_world
  /\ apply_move_sequence (Position.mk 0 0) [MoveCommand.M; MoveCommand.M]
       crossing_world = (Return tt, crossed_world)
  /\ exists final,
      fst (_simulate_move 0%nat [MoveCommand.M; MoveCommand.M] crossing_world)
      = Return final
      /\ get_ship_at (Ship.position final) crossed_world
         = (Return (Some 0%nat), crossed_world).
Proof.
  assert (Hwf : wf crossing_world) by by_running.
  split; [exact Hwf |]. split; [reflexivity |].
  destruct (move_returns_effect crossing_world crossed_world (Position.mk 0 0)
              [MoveCommand.M; MoveCommand.M] 0%nat
              (Ship.new (Position.mk 0 0) Orientation.N)
              Hwf eq_refl eq_refl eq_refl eq_refl)
    as (final & Hsim & _ & Hget & _).
  exists final. split; assumption.
Defined.

Lemma move_back_to_pose_witness :
  wf crossing_world
  /\ fst (_simulate_move 0%nat
            [MoveCommand.R; MoveCommand.R; MoveCommand.R; MoveCommand.R]
            crossing_world)
     = Return (Ship.new (Position.mk 0 0) Orientation.N)
  /\ apply_move_sequence (Position.mk 0 0)
       [MoveCommand.R; MoveCommand.R; MoveCommand.R; MoveCommand.R]
       crossing_world = (Return tt, crossing_world)
  /\ apply_move_sequence (Position.mk 0 0) [] crossing_world
     = (Return tt, crossing_world).
Proof.
  assert (Hwf : wf crossing_world) by by_running.
  split; [exact Hwf |]. split; [reflexivity |].
  apply (move_back_to_pose crossing_world (Position.mk 0 0)
           [MoveCommand.R; MoveCommand.R; MoveCommand.R; MoveCommand.R]
           0%nat (Ship.new (Position.mk 0 0) Orientation.N)
           (Ship.new (Position.mk 0 0) Orientation.N)
           Hwf eq_refl eq_refl eq_refl eq_refl eq_refl eq_refl).
Defined.

Lemma move_sequences_compose_witness :
  wf crossing_world
  /\ apply_move_sequence (Position.mk 0 0) [MoveCommand.R; MoveCommand.M]
       crossing_world
     = (Return tt,
        step (ApplyMoveSequence (Position.mk 0 0)
                [MoveCommand.R; MoveCommand.M]) crossing_world)
  /\ apply_move_sequence (Position.mk 0 0)
       ([MoveCommand.R; MoveCommand.M] ++ [MoveCommand.L; MoveCommand.M])
       crossing_world
     = (Return tt,
        step (ApplyMoveSequence (Position.mk 1 0)
                [MoveCommand.L; MoveCommand.M])
          (step (ApplyMoveSequence (Position.mk 0 0)
                   [MoveCommand.R; MoveCommand.M]) crossing_world)).
Proof.
  assert (Hwf : wf crossing_world) by by_running.
  split; [exact Hwf |]. split; [reflexivity |].
  apply (move_sequences_compose crossing_world
           (step (ApplyMoveSequence (Position.mk 0 0)
                    [MoveCommand.R; MoveCommand.M]) crossing_world)
           _ (Position.mk 0 0) [MoveCommand.R; MoveCommand.M]
           [MoveCommand.L; MoveCommand.M] 0%nat
           (Ship.new (Position.mk 0 0) Orientation.N)
           (Ship.new (Position.mk 1 0) Orientation.E)
           Hwf eq_refl eq_refl eq_refl eq_refl eq_refl).
  reflexivity.
Defined.

Lemma shots_commute_witness :
  wf crossing_world
  /\ fst (apply_shoot (Position.mk 0 0) crossing_world) = Return tt
  /\ fst (apply_shoot (Position.mk 0 1) crossing_world) = Return tt
  /\ exists w',
      apply_shoot (Position.mk 0 1)
        (snd (apply_shoot (Position.mk 0 0) crossing_world))
      = (Return tt, w')
      /\ apply_shoot (Position.mk 0 0)
           (snd (apply_shoot (Position.mk 0 1) crossing_world))
         = (Return tt, w').
Proof.
  assert (Hwf : wf crossing_world) by by_running.
  split; [exact Hwf |].
  apply (shots_commute crossing_world (Position.mk 0 0) (Position.mk 0 1) Hwf).
Defined.

Lemma shot_ship_stays_witness :
  wf crossing_world
  /\ is_within_bounds (board crossing_world) (Position.mk 0 1) = true
  /\ _ships (board crossing_world) !! Position.mk 0 1 = Some 1%nat
  /\ apply_move_sequence (Position.mk 0 1) [MoveCommand.M]
       (snd (apply_shoot (Position.mk 0 1) crossing_world))
     = (Return tt, snd (apply_shoot (Position.mk 0 1) crossing_world)).
Proof.
  assert (Hwf : wf crossing_world) by by_running.
  split; [exact Hwf |]. do 2 (split; [reflexivity |]).
  apply (shot_ship_stays crossing_world (Position.mk 0 1) 1%nat
           [MoveCommand.M] Hwf eq_refl eq_refl).
Defined.

Lemma sunk_is_forever_witness :
  wf sunk_mover_world
  /\ heap sunk_mover_world !! 0%nat
     = Some (Ship.mk (Position.mk 0 0) Orientation.N true)
  /\ heap (run [ApplyMoveSequence (Position.mk 0 0) [MoveCommand.R];
                ApplyShoot (Position.mk 0 0)] sunk_mover_world) !! 0%nat
     = Some (Ship.mk (Position.mk 0 0) Orientation.N true).
Proof.
  assert (Hwf : wf sunk_mover_world) by by_running.
  split; [exact Hwf |]. split; [reflexivity |].
  apply (sunk_is_forever
           [ApplyMoveSequence (Position.mk 0 0) [MoveCommand.R];
            ApplyShoot (Position.mk 0 0)]
           sunk_mover_world 0%nat
           (Ship.mk (Position.mk 0 0) Orientation.N true) Hwf eq_refl eq_refl).
Defined.

Lemma add_ship_once_witness :
  heap (start_world demo_ships 10) !! 0%nat
  = Some (Ship.new (Position.mk 0 0) Orientation.N)
  /\ add_ship 0%nat (start_world demo_ships 10)
     = (Return tt, step (AddShip 0%nat) (start_world demo_ships 10))
  /\ add_ship 0%nat (step (AddShip 0%nat) (start_world demo_ships 10))
     = (Raise (AlreadyOccupied (Position.mk 0 0)
                 (Ship.new (Position.mk 0 0) Orientation.N)),
        step (AddShip 0%nat) (start_world demo_ships 10)).
Proof.
  do 2 (split; [reflexivity |]).
  apply (add_ship_once (start_world demo_ships 10)
           (step (AddShip 0%nat) (start_world demo_ships 10)) 0%nat
           (Ship.new (Position.mk 0 0) Orientation.N) eq_refl eq_refl).
Defined.

Lemma execute_operation_skips_errors_witness :
  wf crossing_world
  /\ _execute_operation
       (Triple OperationType.MOVE (Position.mk 0 0) [MoveCommand.M])
       crossing_world
     = (Finished, crossing_world).
Proof.
  assert (Hwf : wf crossing_world) by by_running.
  split; [exact Hwf |].
  destruct (execute_operation_skips_errors crossing_world
              (Triple OperationType.MOVE (Position.mk 0 0) [MoveCommand.M])
              Hwf) as (Hex & _ & Hsame).
  rewrite Hex.
  rewrite (Hsame (Collision (Position.mk 0 1)
                    (Ship.new (Position.mk 0 1) Orientation.E)) eq_refl).
  reflexivity.
Defined.

Lemma main_output_witness :
  main_simulation 10 demo_ships demo_operations
  = Continue ["(1, 3, N)"; "(9, 2, E) SUNK"]%string
  /\ length ["(1, 3, N)"; "(9, 2, E) SUNK"]%string = length demo_ships.
Proof.
  split; [vm_compute; reflexivity |].
  apply (main_output 10 demo_ships demo_operations).
  vm_compute; reflexivity.
Defined.

Lemma parse_move_sequence_accepts_witness :
  ascii_text "mRmL"
  /\ ((exists cmds, parse_move_sequence "mRmL" = inr cmds)
      <-> Forall (fun ch => ch ∈ ["L"; "R"; "M"; "l"; "r"; "m"]%char)
            (list_ascii_of_string "mRmL")).
Proof.
  assert (Ha : ascii_text "mRmL") by (repeat constructor).
  split; [exact Ha |].
  apply (parse_move_sequence_accepts "mRmL" Ha).
Defined.

Example parse_lower_case :
  parse_move_sequence
    (spell [(true, MoveCommand.M); (false, MoveCommand.R);
            (true, MoveCommand.L)])
  = parse_move_sequence "mRl".
Proof. reflexivity. Qed.

Lemma ship_str_injective_witness :
  Ship.str (Ship.new (Position.mk 1 3) Orientation.N)
  = Ship.str (Ship.mk (Position.mk 1 3) Orientation.N false)
  /\ Ship.new (Position.mk 1 3) Orientation.N
     = Ship.mk (Position.mk 1 3) Orientation.N false.
Proof.
  split; [reflexivity |].
  apply (ship_str_injective (Ship.new (Position.mk 1 3) Orientation.N)
           (Ship.mk (Position.mk 1 3) Orientation.N false)).
  reflexivity.
Defined.
